(** * Memorija: a Map whose entries may expire

    A shallow embedding of [Memorija] (the expiring map) and of
    [MemorijaEntry] (the value object it hands out), together with the
    host facilities the class relies on: the insertion-ordered built-in
    [Map], the [WeakMap] from records to timer handles, the wall clock
    [Date.now()] and the one-shot timers of [setTimeout]/[clearTimeout].

    Numbers are modelled as integers (millisecond instants and
    durations); [JNaN] only appears as the result of a coercion.  The
    scheduler is the ideal one: a timer is due exactly at the instant of
    scheduling plus its delay, and fires at some later moment of the
    scheduler's choosing unless it was cleared before. *)

From stdpp Require Import gmap strings list.

(** ** JavaScript values *)

(** The values of type [number | null | undefined] that the class takes
    as TTLs and deadlines and returns from its accessors. *)
Inductive jsnum : Type :=
  | JUndefined
  | JNull
  | JNum (z : Z)
  | JNaN.

(** Keys and stored values: primitive JavaScript values.  On these,
    the key equality of [Map] (SameValueZero) is structural equality. *)
Inductive jsval : Type :=
  | VUndefined
  | VNull
  | VBool (b : bool)
  | VNum (z : Z)
  | VStr (s : string).

#[global] Instance jsnum_eq_dec : EqDecision jsnum.
Proof. solve_decision. Defined.

#[global] Instance jsval_eq_dec : EqDecision jsval.
Proof. solve_decision. Defined.

(** [ToNumber]: [null] is [0], [undefined] is [NaN] ([None]). *)
Definition to_number (n : jsnum) : option Z :=
  match n with
  | JUndefined => None
  | JNull => Some 0%Z
  | JNum z => Some z
  | JNaN => None
  end.

(** Sum and difference of numbers.  They are exact on integers, as
    the arithmetic of the program is on safe integers (of magnitude at
    most [2^53 - 1], see [safe_integer]); beyond that range the program
    rounds and these do not.  Statements that read a computed number
    back carry the range as a hypothesis. *)
Definition js_add (a b : jsnum) : jsnum :=
  match to_number a, to_number b with
  | Some x, Some y => JNum (x + y)
  | _, _ => JNaN
  end.

Definition js_sub (a b : jsnum) : jsnum :=
  match to_number a, to_number b with
  | Some x, Some y => JNum (x - y)
  | _, _ => JNaN
  end.

Definition js_lt (a b : jsnum) : bool :=
  match to_number a, to_number b with
  | Some x, Some y => bool_decide (x < y)%Z
  | _, _ => false
  end.

(** ** The built-in insertion-ordered [Map] *)

Section jsmap.
Context {A : Type}.

Fixpoint jsmap_get (k : jsval) (m : list (jsval * A)) : option A :=
  match m with
  | [] => None
  | (k', a) :: m' => if decide (k' = k) then Some a else jsmap_get k m'
  end.

(** An existing key keeps its position, a new key goes to the end. *)
Fixpoint jsmap_set (k : jsval) (a : A) (m : list (jsval * A))
  : list (jsval * A) :=
  match m with
  | [] => [(k, a)]
  | (k', a') :: m' =>
      if decide (k' = k) then (k', a) :: m' else (k', a') :: jsmap_set k a m'
  end.

Fixpoint jsmap_delete (k : jsval) (m : list (jsval * A))
  : list (jsval * A) :=
  match m with
  | [] => []
  | (k', a') :: m' =>
      if decide (k' = k) then jsmap_delete k m' else (k', a') :: jsmap_delete k m'
  end.

Definition jsmap_has (k : jsval) (m : list (jsval * A)) : bool :=
  match jsmap_get k m with Some _ => true | None => false end.

Definition jsmap_keys (m : list (jsval * A)) : list jsval := m.*1.
End jsmap.

(** ** MemorijaEntry *)

Module MemorijaEntry.

Record t : Type := mk { _value : jsval; _expireAt : jsnum }.

Definition constructor (value : jsval) (expireAt : jsnum) : t :=
  {| _value := value;
     _expireAt := match expireAt with JUndefined => JNull | e => e end |}.

Definition value (this : t) : jsval := _value this.

Definition expireAt (this : t) : jsnum := _expireAt this.

(** [now] is the reading of [Date.now()]. *)
Definition ttl (now : Z) (this : t) : jsnum :=
  match expireAt this with
  | JNull => JNull
  | e => js_sub e (JNum now)
  end.

Definition isExpired (now : Z) (this : t) : bool :=
  match expireAt this with
  | JNull => false
  | e => js_lt e (JNum now)
  end.

End MemorijaEntry.

(** ** Memorija *)

Module Memorija.

(** A raw entry is the array [[expireAt, value]]; [ref] is the identity
    of the array object, which is what the [WeakMap] of timers is keyed
    by. *)
Record RawEntry : Type := mkRawEntry {
  ref : nat;
  slot0 : jsnum;
  slot1 : jsval
}.

(** A pending one-shot timer of the host: the key and the entry the
    callback closed over, and the instant it becomes due.  A delay that
    is zero or negative makes the timer due at once. *)
Record Timer : Type := mkTimer {
  cb_key : jsval;
  cb_entry : nat;
  fire_at : Z
}.

Record state : Type := mkState {
  map : list (jsval * RawEntry);
  timers : gmap nat nat;
  pending : gmap nat Timer;
  clock : Z;
  next_ref : nat;
  next_handle : nat
}.

Definition constructor (now : Z) : state :=
  {| map := []; timers := ∅; pending := ∅;
     clock := now; next_ref := 0; next_handle := 0 |}.

(** *** The host's timers *)

(** The delay a timer is scheduled with.  It is the requested delay,
    which is what the host grants for delays up to 2147483647 ms (see
    [timer_range]); a larger delay overflows the host's timer, which
    then fires after one millisecond.  Statements about when a timer
    fires carry the range as a hypothesis. *)
Definition delay (timeout : jsnum) : Z :=
  match to_number timeout with Some z => z | None => 0%Z end.

Definition setTimeout (key : jsval) (entry : RawEntry) (timeout : jsnum)
    (s : state) : nat * state :=
  (next_handle s,
   {| map := map s; timers := timers s;
      pending := <[next_handle s :=
                     mkTimer key (ref entry) (clock s + delay timeout)]>
                   (pending s);
      clock := clock s; next_ref := next_ref s;
      next_handle := S (next_handle s) |}).

Definition clearTimeout (handle : option nat) (s : state) : state :=
  match handle with
  | None => s
  | Some h =>
      {| map := map s; timers := timers s;
         pending := delete h (pending s);
         clock := clock s; next_ref := next_ref s;
         next_handle := next_handle s |}
  end.

(** *** Private helpers *)

Definition getRawEntry (key : jsval) (s : state) : option RawEntry :=
  jsmap_get key (map s).

Definition createTimer (key : jsval) (entry : RawEntry) (timeout : jsnum)
    (s : state) : state :=
  let '(h, s1) := setTimeout key entry timeout s in
  {| map := map s1; timers := <[ref entry := h]> (timers s1);
     pending := pending s1; clock := clock s1;
     next_ref := next_ref s1; next_handle := next_handle s1 |}.

(** The body of the arrow function handed to [setTimeout]. *)
Definition timer_callback (key : jsval) (entry : nat) (s : state) : state :=
  {| map := jsmap_delete key (map s);
     timers := delete entry (timers s);
     pending := pending s; clock := clock s;
     next_ref := next_ref s; next_handle := next_handle s |}.

(** [entry] is [None] when the caller passes [undefined]: the lookup in
    the [WeakMap] then finds nothing and both calls do nothing. *)
Definition cancelTimerForRawEntry (entry : option RawEntry) (s : state)
    : state :=
  match entry with
  | None => s
  | Some e =>
      let s1 := clearTimeout (timers s !! ref e) s in
      {| map := map s1; timers := delete (ref e) (timers s1);
         pending := pending s1; clock := clock s1;
         next_ref := next_ref s1; next_handle := next_handle s1 |}
  end.

Definition cancelTimerForKey (key : jsval) (s : state) : state :=
  cancelTimerForRawEntry (getRawEntry key s) s.

Definition cancelTimers (s : state) : state :=
  fold_left (fun acc kv => cancelTimerForRawEntry (Some kv.2) acc) (map s) s.

(** *** Public interface *)

Definition size (s : state) : nat := length (map s).

Definition get (key : jsval) (s : state) : jsval :=
  match getRawEntry key s with
  | None => VUndefined
  | Some result => slot1 result
  end.

Definition getEntry (key : jsval) (s : state) : option MemorijaEntry.t :=
  match getRawEntry key s with
  | None => None
  | Some entry => Some (MemorijaEntry.constructor (slot1 entry) (slot0 entry))
  end.

Definition set (key value : jsval) (ttl : jsnum) (s : state) : state :=
  let s1 := cancelTimerForKey key s in
  let expireAt :=
    match ttl with
    | JUndefined => JUndefined
    | _ => js_add (JNum (clock s1)) ttl
    end in
  let entry := mkRawEntry (next_ref s1) expireAt value in
  let s2 := {| map := jsmap_set key entry (map s1); timers := timers s1;
               pending := pending s1; clock := clock s1;
               next_ref := S (next_ref s1);
               next_handle := next_handle s1 |} in
  match ttl with
  | JUndefined => s2
  | _ => createTimer key entry ttl s2
  end.

Definition ttl (key : jsval) (ttl : jsnum) (s : state) : jsnum * state :=
  match getEntry key s with
  | None => (JUndefined, s)
  | Some entry =>
      match ttl with
      | JUndefined => (MemorijaEntry.ttl (clock s) entry, s)
      | _ => (ttl, set key (MemorijaEntry.value entry) ttl s)
      end
  end.

Definition expireAt (key : jsval) (expireAt : jsnum) (s : state)
    : jsnum * state :=
  match getRawEntry key s with
  | None => (JUndefined, s)
  | Some entry =>
      match expireAt with
      | JUndefined => (slot0 entry, s)
      | JNull => (JNull, set key (slot1 entry) JUndefined s)
      | _ => (expireAt,
              set key (slot1 entry) (js_sub expireAt (JNum (clock s))) s)
      end
  end.

Definition has (key : jsval) (s : state) : bool := jsmap_has key (map s).

Definition delete (key : jsval) (s : state) : bool * state :=
  let s1 := cancelTimerForKey key s in
  (jsmap_has key (map s1),
   {| map := jsmap_delete key (map s1); timers := timers s1;
      pending := pending s1; clock := clock s1;
      next_ref := next_ref s1; next_handle := next_handle s1 |}).

Definition clear (s : state) : state :=
  let s1 := cancelTimers s in
  {| map := []; timers := timers s1; pending := pending s1;
     clock := clock s1; next_ref := next_ref s1;
     next_handle := next_handle s1 |}.

(** The effect of the callback is an accumulator threaded through the
    calls. *)
Definition forEach {A : Type} (callbackfn : jsval -> jsval -> A -> A)
    (s : state) (acc : A) : A :=
  fold_left (fun a kv => callbackfn (slot1 kv.2) kv.1 a) (map s) acc.

Definition keys (s : state) : list jsval := jsmap_keys (map s).

Definition values (s : state) : list jsval :=
  (fun kv => slot1 kv.2) <$> map s.

Definition entries (s : state) : list (jsval * jsval) :=
  (fun kv => (kv.1, slot1 kv.2)) <$> map s.

Definition fullEntries (s : state) : list (jsval * MemorijaEntry.t) :=
  (fun kv => (kv.1, MemorijaEntry.constructor (slot1 kv.2) (slot0 kv.2)))
    <$> map s.

Definition fullValues (s : state) : list MemorijaEntry.t :=
  (fun kv => MemorijaEntry.constructor (slot1 kv.2) (slot0 kv.2)) <$> map s.

Definition iterator (s : state) : list (jsval * jsval) := entries s.

(** *** The scheduler *)

(** The host runs the callback of timer [h] once it is due and still
    pending; a cleared or unknown handle never runs. *)
Definition fire (h : nat) (s : state) : state :=
  match pending s !! h with
  | None => s
  | Some t =>
      if bool_decide (fire_at t ≤ clock s)%Z then
        timer_callback (cb_key t) (cb_entry t)
          {| map := map s; timers := timers s;
             pending := base.delete h (pending s);
             clock := clock s; next_ref := next_ref s;
             next_handle := next_handle s |}
      else s
  end.

Definition tick (d : Z) (s : state) : state :=
  {| map := map s; timers := timers s; pending := pending s;
     clock := (clock s + d)%Z; next_ref := next_ref s;
     next_handle := next_handle s |}.

(** *** Runs of the program *)

Inductive event : Type :=
  | ESet (key value : jsval) (ttl : jsnum)
  | EDelete (key : jsval)
  | EClear
  | ETtl (key : jsval) (ttl : jsnum)
  | EExpireAt (key : jsval) (expireAt : jsnum)
  | ETick (d : Z)
  | EFire (h : nat).

Definition exec (e : event) (s : state) : state :=
  match e with
  | ESet k v t => set k v t s
  | EDelete k => (delete k s).2
  | EClear => clear s
  | ETtl k t => (ttl k t s).2
  | EExpireAt k x => (expireAt k x s).2
  | ETick d => tick d s
  | EFire h => fire h s
  end.

(** Callers pass [undefined], [null] or a finite number; the clock
    never runs backwards. *)
Definition well_typed (e : event) : Prop :=
  match e with
  | ESet _ _ t => t ≠ JNaN
  | ETtl _ t => t ≠ JNaN
  | EExpireAt _ x => x ≠ JNaN
  | ETick d => (0 ≤ d)%Z
  | _ => True
  end.

Inductive reachable : state -> Prop :=
  | reachable_new now : reachable (constructor now)
  | reachable_step e s :
      reachable s -> well_typed e -> reachable (exec e s).

Definition run (tr : list event) (s : state) : state :=
  fold_left (fun acc e => exec e acc) tr s.

(** Events of the scheduler alone: time passing and timers firing. *)
Definition scheduler_event (e : event) : Prop :=
  match e with
  | ETick d => (0 ≤ d)%Z
  | EFire _ => True
  | _ => False
  end.

End Memorija.

(** ** Vocabulary of the statements *)

(** The deadline [set] stores for a given [ttl] argument. *)
Definition new_deadline (now : Z) (ttl : jsnum) : jsnum :=
  match ttl with
  | JUndefined => JUndefined
  | _ => js_add (JNum now) ttl
  end.

(** The [WeakMap] and the host's timer table once the timer of the
    record stored under [key] has been cancelled. *)
Definition timers_after_cancel (key : jsval) (s : Memorija.state)
    : gmap nat nat :=
  match Memorija.getRawEntry key s with
  | None => Memorija.timers s
  | Some r => delete (Memorija.ref r) (Memorija.timers s)
  end.

Definition pending_after_cancel (key : jsval) (s : Memorija.state)
    : gmap nat Memorija.Timer :=
  match Memorija.getRawEntry key s with
  | None => Memorija.pending s
  | Some r =>
      match Memorija.timers s !! Memorija.ref r with
      | Some h => delete h (Memorija.pending s)
      | None => Memorija.pending s
      end
  end.

(** A record owns a live timer: the [WeakMap] maps it to a handle that
    is still pending in the host, and that timer closes over this very
    record under this key. *)
Definition live_timer (s : Memorija.state) (k : jsval)
    (r : Memorija.RawEntry) (h : nat) (t : Memorija.Timer) : Prop :=
  Memorija.timers s !! Memorija.ref r = Some h
  ∧ Memorija.pending s !! h = Some t
  ∧ Memorija.cb_key t = k
  ∧ Memorija.cb_entry t = Memorija.ref r.

(** The invariant tying the map, the [WeakMap] and the host's timers
    together. *)
Record timer_inv (s : Memorija.state) : Prop := {
  (* every pending timer belongs to the record now stored under its key,
     and is due at that record's deadline *)
  inv_pending : ∀ h t,
    Memorija.pending s !! h = Some t ->
    ∃ r, Memorija.getRawEntry (Memorija.cb_key t) s = Some r
         ∧ Memorija.ref r = Memorija.cb_entry t
         ∧ Memorija.timers s !! Memorija.ref r = Some h
         ∧ Memorija.slot0 r = JNum (Memorija.fire_at t);
  (* every handle in the WeakMap is pending, for the record it is
     filed under *)
  inv_timers : ∀ x h,
    Memorija.timers s !! x = Some h ->
    ∃ t, Memorija.pending s !! h = Some t ∧ Memorija.cb_entry t = x;
  (* a stored record has a handle exactly when its deadline is set *)
  inv_deadline : ∀ k r,
    Memorija.getRawEntry k s = Some r ->
    (Memorija.slot0 r = JUndefined -> Memorija.timers s !! Memorija.ref r = None)
    ∧ (Memorija.slot0 r ≠ JUndefined ->
       is_Some (Memorija.timers s !! Memorija.ref r));
  (* object identities and handles are fresh *)
  inv_ref_fresh : ∀ k r,
    Memorija.getRawEntry k s = Some r ->
    Memorija.ref r < Memorija.next_ref s;
  inv_handle_fresh : ∀ h,
    is_Some (Memorija.pending s !! h) -> h < Memorija.next_handle s;
  (* distinct keys hold distinct objects *)
  inv_ref_inj : ∀ k1 k2 r1 r2,
    Memorija.getRawEntry k1 s = Some r1 ->
    Memorija.getRawEntry k2 s = Some r2 ->
    Memorija.ref r1 = Memorija.ref r2 -> k1 = k2;
  inv_keys : NoDup (Memorija.keys s)
}.

(** What the data model asks of every stored record: it owns a live
    timer exactly when its deadline is set, and that timer is due at the
    record's deadline. *)
Definition deadline_iff_live_timer (s : Memorija.state) : Prop :=
  ∀ k r,
    Memorija.getRawEntry k s = Some r ->
    (Memorija.slot0 r ≠ JUndefined <-> ∃ h t, live_timer s k r h t)
    ∧ (∀ h t, live_timer s k r h t ->
         Memorija.slot0 r = JNum (Memorija.fire_at t)).

(** ** Ranges in which the host is exact *)

(** [Number.MAX_SAFE_INTEGER] bounds the integers on which the sums and
    differences of the program are exact. *)
Definition safe_integer (z : Z) : Prop :=
  (-9007199254740991 ≤ z ≤ 9007199254740991)%Z.

(** The largest delay the host's timers take. *)
Definition TIMEOUT_MAX : Z := 2147483647.

(** A TTL the host schedules as requested: [null], or a finite number
    not above [TIMEOUT_MAX]; [undefined] schedules nothing. *)
Definition timer_range (timeout : jsnum) : Prop :=
  match timeout with
  | JNum z => (z ≤ TIMEOUT_MAX)%Z
  | JNaN => False
  | _ => True
  end.

(** A deadline [now + ttl] that the program computes exactly: the
    operands and the sum are safe integers. *)
Definition exact_deadline (now : Z) (ttl : jsnum) : Prop :=
  match ttl with
  | JNum z => safe_integer now ∧ safe_integer z ∧ safe_integer (now + z)
  | _ => True
  end.

(** A call that stays within the host's range: the timer it installs,
    if any, has a delay the host takes as requested, and the deadline it
    stores is computed exactly.  [expireAt] schedules with the delay
    [expireAt - now]. *)
Definition within_timer_range (e : Memorija.event) (s : Memorija.state)
    : Prop :=
  match e with
  | Memorija.ESet _ _ t =>
      timer_range t ∧ exact_deadline (Memorija.clock s) t
  | Memorija.ETtl _ t =>
      timer_range t ∧ exact_deadline (Memorija.clock s) t
  | Memorija.EExpireAt _ x =>
      match x with
      | JNum i =>
          (i - Memorija.clock s ≤ TIMEOUT_MAX)%Z
          ∧ safe_integer (Memorija.clock s) ∧ safe_integer i
          ∧ safe_integer (i - Memorija.clock s)
      | JNaN => False
      | _ => True
      end
  | _ => True
  end.

(** States reached by calls that all stay within the host's range. *)
Inductive reachable_in_range : Memorija.state -> Prop :=
  | in_range_new now : reachable_in_range (Memorija.constructor now)
  | in_range_step e s :
      reachable_in_range s ->
      Memorija.well_typed e ->
      within_timer_range e s ->
      reachable_in_range (Memorija.exec e s).

(** States reached by any calls at all, with any arguments. *)
Inductive reachable_any : Memorija.state -> Prop :=
  | any_new now : reachable_any (Memorija.constructor now)
  | any_step e s : reachable_any s -> reachable_any (Memorija.exec e s).

(** The part of the invariant that is about ownership alone; it does
    not depend on the arguments of the calls. *)
Record owner_inv (s : Memorija.state) : Prop := {
  own_pending : ∀ h t,
    Memorija.pending s !! h = Some t ->
    ∃ r, Memorija.getRawEntry (Memorija.cb_key t) s = Some r
         ∧ Memorija.ref r = Memorija.cb_entry t
         ∧ Memorija.timers s !! Memorija.ref r = Some h;
  own_timers : ∀ x h,
    Memorija.timers s !! x = Some h ->
    ∃ t, Memorija.pending s !! h = Some t ∧ Memorija.cb_entry t = x;
  own_deadline : ∀ k r,
    Memorija.getRawEntry k s = Some r ->
    (Memorija.slot0 r = JUndefined -> Memorija.timers s !! Memorija.ref r = None)
    ∧ (Memorija.slot0 r ≠ JUndefined ->
       is_Some (Memorija.timers s !! Memorija.ref r));
  own_ref_fresh : ∀ k r,
    Memorija.getRawEntry k s = Some r ->
    Memorija.ref r < Memorija.next_ref s;
  own_handle_fresh : ∀ h,
    is_Some (Memorija.pending s !! h) -> h < Memorija.next_handle s;
  own_ref_inj : ∀ k1 k2 r1 r2,
    Memorija.getRawEntry k1 s = Some r1 ->
    Memorija.getRawEntry k2 s = Some r2 ->
    Memorija.ref r1 = Memorija.ref r2 -> k1 = k2;
  own_keys : NoDup (Memorija.keys s)
}.

(** A stored record owns a live timer exactly when its deadline is
    set. *)
Definition timer_iff_deadline (s : Memorija.state) : Prop :=
  ∀ k r,
    Memorija.getRawEntry k s = Some r ->
    (Memorija.slot0 r ≠ JUndefined <-> ∃ h t, live_timer s k r h t).

(** * Properties *)

(** ** Laws of the built-in [Map] *)

Section jsmap_laws.
Context {A : Type}.
Implicit Types (k : jsval) (a : A) (m : list (jsval * A)).

Lemma jsmap_get_set_eq k a m : jsmap_get k (jsmap_set k a m) = Some a.
Proof.
  induction m as [|[k' a'] m IH]; simpl.
  - by rewrite decide_True.
  - destruct (decide (k' = k)) as [->|Hne]; simpl.
    + by rewrite decide_True.
    + by rewrite decide_False.
Qed.

Lemma jsmap_get_set_ne k k' a m :
  k ≠ k' -> jsmap_get k' (jsmap_set k a m) = jsmap_get k' m.
Proof.
  intros Hne. induction m as [|[k0 a0] m IH]; simpl.
  - by rewrite decide_False.
  - destruct (decide (k0 = k)) as [->|Hk0]; simpl.
    + by rewrite !decide_False.
    + by rewrite IH.
Qed.

Lemma jsmap_get_delete_eq k m : jsmap_get k (jsmap_delete k m) = None.
Proof.
  induction m as [|[k' a'] m IH]; simpl; [done|].
  destruct (decide (k' = k)); simpl; [done|]. by rewrite decide_False.
Qed.

Lemma jsmap_get_delete_ne k k' m :
  k ≠ k' -> jsmap_get k' (jsmap_delete k m) = jsmap_get k' m.
Proof.
  intros Hne. induction m as [|[k0 a0] m IH]; simpl; [done|].
  destruct (decide (k0 = k)) as [->|Hk0]; simpl.
  - by rewrite decide_False.
  - by rewrite IH.
Qed.

Lemma jsmap_get_Some_elem k a m : jsmap_get k m = Some a -> (k, a) ∈ m.
Proof.
  induction m as [|[k' a'] m IH]; simpl; [done|].
  destruct (decide (k' = k)) as [->|Hne].
  - intros [= ->]. left.
  - intros H. right. by apply IH.
Qed.

Lemma jsmap_get_None_keys k m : jsmap_get k m = None <-> k ∉ jsmap_keys m.
Proof.
  unfold jsmap_keys. induction m as [|[k' a'] m IH]; simpl.
  - split; [intros _; apply not_elem_of_nil | done].
  - rewrite not_elem_of_cons. destruct (decide (k' = k)) as [->|Hne].
    + split; [done | intros [? _]; done].
    + rewrite IH. split; [intros ?; split; [congruence | done] | intros [_ ?]; done].
Qed.

Lemma jsmap_has_keys k m : jsmap_has k m = true <-> k ∈ jsmap_keys m.
Proof.
  unfold jsmap_has. destruct (jsmap_get k m) eqn:E.
  - split; [intros _ | done].
    destruct (decide (k ∈ jsmap_keys m)) as [|Hn]; [done|].
    apply jsmap_get_None_keys in Hn. congruence.
  - split; [done|]. intros Hin. by apply jsmap_get_None_keys in E.
Qed.

Lemma jsmap_keys_set_present k a m :
  jsmap_has k m = true -> jsmap_keys (jsmap_set k a m) = jsmap_keys m.
Proof.
  unfold jsmap_has, jsmap_keys. induction m as [|[k' a'] m IH]; simpl; [done|].
  destruct (decide (k' = k)) as [->|Hne]; simpl; [done|].
  intros H. f_equal. by apply IH.
Qed.

Lemma jsmap_keys_set_absent k a m :
  jsmap_has k m = false -> jsmap_keys (jsmap_set k a m) = jsmap_keys m ++ [k].
Proof.
  unfold jsmap_has, jsmap_keys. induction m as [|[k' a'] m IH]; simpl; [done|].
  destruct (decide (k' = k)) as [->|Hne]; simpl; [done|].
  intros H. f_equal. by apply IH.
Qed.

Lemma jsmap_keys_delete k m :
  jsmap_keys (jsmap_delete k m) = filter (fun k' => k' ≠ k) (jsmap_keys m).
Proof.
  unfold jsmap_keys. induction m as [|[k' a'] m IH]; simpl; [done|].
  destruct (decide (k' = k)) as [->|Hne].
  - rewrite filter_cons_False; [done | by intros ?].
  - rewrite filter_cons_True; [|done]. simpl. f_equal. by apply IH.
Qed.

Lemma jsmap_length_set_absent k a m :
  jsmap_has k m = false -> length (jsmap_set k a m) = S (length m).
Proof.
  unfold jsmap_has. induction m as [|[k' a'] m IH]; simpl; [done|].
  destruct (decide (k' = k)) as [->|Hne]; simpl; [done|].
  intros H. f_equal. by apply IH.
Qed.

Lemma jsmap_NoDup_set k a m :
  NoDup (jsmap_keys m) -> NoDup (jsmap_keys (jsmap_set k a m)).
Proof.
  intros Hnd. destruct (jsmap_has k m) eqn:E.
  - by rewrite jsmap_keys_set_present.
  - rewrite jsmap_keys_set_absent; [|done].
    apply NoDup_app. split; [done|]. split; [|apply NoDup_singleton].
    intros x Hx ->%list_elem_of_singleton.
    apply jsmap_has_keys in Hx. congruence.
Qed.

Lemma jsmap_NoDup_delete k m :
  NoDup (jsmap_keys m) -> NoDup (jsmap_keys (jsmap_delete k m)).
Proof. intros Hnd. rewrite jsmap_keys_delete. by apply NoDup_filter. Qed.
End jsmap_laws.

(** ** What each operation does to each component of the state *)

Lemma cancelTimerForKey_frame key s :
  Memorija.map (Memorija.cancelTimerForKey key s) = Memorija.map s
  ∧ Memorija.clock (Memorija.cancelTimerForKey key s) = Memorija.clock s
  ∧ Memorija.next_ref (Memorija.cancelTimerForKey key s) = Memorija.next_ref s
  ∧ Memorija.next_handle (Memorija.cancelTimerForKey key s)
    = Memorija.next_handle s.
Proof.
  unfold Memorija.cancelTimerForKey, Memorija.cancelTimerForRawEntry.
  destruct (Memorija.getRawEntry key s) as [e|]; [|done].
  by destruct (Memorija.timers s !! Memorija.ref e).
Qed.

Lemma set_map key value ttl s :
  Memorija.map (Memorija.set key value ttl s)
  = jsmap_set key
      (Memorija.mkRawEntry (Memorija.next_ref s)
         (new_deadline (Memorija.clock s) ttl) value)
      (Memorija.map s).
Proof.
  destruct (cancelTimerForKey_frame key s) as (Hm & Hc & Hr & _).
  unfold Memorija.set, new_deadline.
  destruct ttl; simpl; by rewrite ?Hm, ?Hc, ?Hr.
Qed.

Lemma set_clock key value ttl s :
  Memorija.clock (Memorija.set key value ttl s) = Memorija.clock s.
Proof.
  destruct (cancelTimerForKey_frame key s) as (_ & Hc & _).
  unfold Memorija.set. by destruct ttl; simpl.
Qed.

Lemma delete_map key s :
  Memorija.map (Memorija.delete key s).2 = jsmap_delete key (Memorija.map s).
Proof.
  destruct (cancelTimerForKey_frame key s) as (Hm & _).
  unfold Memorija.delete; simpl. by rewrite Hm.
Qed.

Lemma getRawEntry_set_eq key value ttl s :
  Memorija.getRawEntry key (Memorija.set key value ttl s)
  = Some (Memorija.mkRawEntry (Memorija.next_ref s)
            (new_deadline (Memorija.clock s) ttl) value).
Proof. unfold Memorija.getRawEntry. rewrite set_map. apply jsmap_get_set_eq. Qed.

Lemma getRawEntry_set_ne key key' value ttl s :
  key ≠ key' ->
  Memorija.getRawEntry key' (Memorija.set key value ttl s)
  = Memorija.getRawEntry key' s.
Proof.
  intros. unfold Memorija.getRawEntry. rewrite set_map.
  by apply jsmap_get_set_ne.
Qed.

Lemma has_getRawEntry key s :
  Memorija.has key s = true <-> is_Some (Memorija.getRawEntry key s).
Proof.
  unfold Memorija.has, jsmap_has, Memorija.getRawEntry.
  destruct (jsmap_get key (Memorija.map s)); split; try done.
Qed.

(** ** Entries ([MemorijaEntry]) *)

(** C10.  An entry constructed with the deadline omitted ([undefined])
    stores [null], exactly as one constructed with an explicit [null]:
    [expireAt] and [ttl] are [null] and [isExpired] is [false].  Whatever
    the deadline argument, the [expireAt] and [ttl] of an entry are never
    [undefined]. *)
Theorem entry_omitted_deadline_is_null (v : jsval) (now : Z) :
  let e := MemorijaEntry.constructor v JUndefined in
  MemorijaEntry.expireAt e = JNull
  ∧ MemorijaEntry.ttl now e = JNull
  ∧ MemorijaEntry.isExpired now e = false
  ∧ e = MemorijaEntry.constructor v JNull
  ∧ (∀ d : jsnum,
       MemorijaEntry.expireAt (MemorijaEntry.constructor v d) ≠ JUndefined
       ∧ MemorijaEntry.ttl now (MemorijaEntry.constructor v d) ≠ JUndefined).
Proof.
  repeat split; try reflexivity.
  - by destruct d.
  - by destruct d.
Qed.

(** ** Iteration order *)

Lemma entries_keys s : (Memorija.entries s).*1 = Memorija.keys s.
Proof.
  unfold Memorija.entries, Memorija.keys, jsmap_keys.
  induction (Memorija.map s) as [|[k r] m IH]; simpl; [done|].
  f_equal. apply IH.
Qed.

Lemma entries_values s : (Memorija.entries s).*2 = Memorija.values s.
Proof.
  unfold Memorija.entries, Memorija.values.
  induction (Memorija.map s) as [|[k r] m IH]; simpl; [done|].
  f_equal. apply IH.
Qed.

Lemma forEach_entries {A : Type} (f : jsval -> jsval -> A -> A) s acc :
  Memorija.forEach f s acc
  = fold_left (fun x kv => f kv.2 kv.1 x) (Memorija.entries s) acc.
Proof.
  unfold Memorija.forEach, Memorija.entries.
  revert acc. induction (Memorija.map s) as [|[k r] m IH]; simpl; [done|].
  intros acc. apply IH.
Qed.

Lemma fullEntries_keys s : (Memorija.fullEntries s).*1 = Memorija.keys s.
Proof.
  unfold Memorija.fullEntries, Memorija.keys, jsmap_keys.
  induction (Memorija.map s) as [|[k r] m IH]; simpl; [done|].
  f_equal. apply IH.
Qed.

(** C7.  Every form of iteration walks the same insertion-ordered
    sequence.  Setting a key that is present keeps its position, setting
    an absent key appends it, deleting removes it; so [set(a,1);
    set(b,2); set(a,3)] iterates as [a, b] and a following [delete(a);
    set(a,4)] as [b, a]. *)
Theorem iteration_in_insertion_order
    (a b v1 v2 v3 v4 : jsval) (t1 t2 t3 t4 : jsnum) (now : Z) :
  a ≠ b ->
  let s3 := Memorija.set a v3 t3 (Memorija.set b v2 t2
              (Memorija.set a v1 t1 (Memorija.constructor now))) in
  let s5 := Memorija.set a v4 t4 (Memorija.delete a s3).2 in
  Memorija.keys s3 = [a; b]
  ∧ Memorija.keys s5 = [b; a]
  ∧ Memorija.entries s3 = [(a, v3); (b, v2)]
  ∧ Memorija.entries s5 = [(b, v2); (a, v4)]
  ∧ (∀ s, Memorija.keys s = (Memorija.entries s).*1
          ∧ Memorija.values s = (Memorija.entries s).*2
          ∧ Memorija.iterator s = Memorija.entries s
          ∧ (Memorija.fullEntries s).*1 = Memorija.keys s
          ∧ ∀ (f : jsval -> jsval -> list (jsval * jsval)
                     -> list (jsval * jsval)) acc,
              Memorija.forEach f s acc
              = fold_left (fun x kv => f kv.2 kv.1 x) (Memorija.entries s) acc)
  ∧ (∀ s k v t, Memorija.has k s = true ->
       Memorija.keys (Memorija.set k v t s) = Memorija.keys s)
  ∧ (∀ s k v t, Memorija.has k s = false ->
       Memorija.keys (Memorija.set k v t s) = Memorija.keys s ++ [k])
  ∧ (∀ s k, Memorija.keys (Memorija.delete k s).2
            = filter (fun k' => k' ≠ k) (Memorija.keys s)).
Proof.
  intros Hab s3 s5.
  assert (Hba : b ≠ a) by congruence.
  repeat split.
  - unfold s3, Memorija.keys. rewrite !set_map.
    simpl; repeat (case_decide; simpl; try congruence).
  - unfold s5, s3, Memorija.keys. rewrite set_map, delete_map, !set_map.
    simpl; repeat (case_decide; simpl; try congruence).
  - unfold s3, Memorija.entries. rewrite !set_map.
    simpl; repeat (case_decide; simpl; try congruence).
  - unfold s5, s3, Memorija.entries. rewrite set_map, delete_map, !set_map.
    simpl; repeat (case_decide; simpl; try congruence).
  - symmetry. apply entries_keys.
  - symmetry. apply entries_values.
  - apply fullEntries_keys.
  - intros f acc. apply forEach_entries.
  - intros s k v t H. unfold Memorija.keys. rewrite set_map.
    by apply jsmap_keys_set_present.
  - intros s k v t H. unfold Memorija.keys. rewrite set_map.
    by apply jsmap_keys_set_absent.
  - intros s k. unfold Memorija.keys. rewrite delete_map.
    apply jsmap_keys_delete.
Qed.

Lemma iteration_in_insertion_order_witness :
  VStr "a" ≠ VStr "b"
  ∧ Memorija.keys
      (Memorija.set (VStr "a") (VNum 3) JUndefined
         (Memorija.set (VStr "b") (VNum 2) JUndefined
            (Memorija.set (VStr "a") (VNum 1) JUndefined
               (Memorija.constructor 0))))
    = [VStr "a"; VStr "b"].
Proof.
  split; [discriminate|].
  refine (proj1 (iteration_in_insertion_order (VStr "a") (VStr "b")
                   (VNum 1) (VNum 2) (VNum 3) (VNum 4)
                   JUndefined JUndefined JUndefined JUndefined 0 _)).
  discriminate.
Defined.

(** ** Timers installed and cancelled by the operations *)

Lemma cancelTimerForKey_timers key s :
  Memorija.timers (Memorija.cancelTimerForKey key s) = timers_after_cancel key s
  ∧ Memorija.pending (Memorija.cancelTimerForKey key s)
    = pending_after_cancel key s.
Proof.
  unfold Memorija.cancelTimerForKey, Memorija.cancelTimerForRawEntry,
    timers_after_cancel, pending_after_cancel.
  destruct (Memorija.getRawEntry key s) as [e|]; [|done].
  by destruct (Memorija.timers s !! Memorija.ref e).
Qed.

Lemma set_timers_with_ttl key value ttl s :
  ttl ≠ JUndefined ->
  Memorija.timers (Memorija.set key value ttl s)
  = <[Memorija.next_ref s := Memorija.next_handle s]>
      (timers_after_cancel key s)
  ∧ Memorija.pending (Memorija.set key value ttl s)
    = <[Memorija.next_handle s :=
          Memorija.mkTimer key (Memorija.next_ref s)
            (Memorija.clock s + Memorija.delay ttl)]>
        (pending_after_cancel key s)
  ∧ Memorija.next_ref (Memorija.set key value ttl s)
    = S (Memorija.next_ref s)
  ∧ Memorija.next_handle (Memorija.set key value ttl s)
    = S (Memorija.next_handle s).
Proof.
  intros Httl.
  destruct (cancelTimerForKey_frame key s) as (Hm & Hc & Hr & Hh).
  destruct (cancelTimerForKey_timers key s) as (Ht & Hp).
  unfold Memorija.set, Memorija.createTimer, Memorija.setTimeout.
  destruct ttl; [done | simpl; by rewrite Ht, Hp, Hc, Hr, Hh ..].
Qed.

Lemma set_timers_without_ttl key value s :
  Memorija.timers (Memorija.set key value JUndefined s)
  = timers_after_cancel key s
  ∧ Memorija.pending (Memorija.set key value JUndefined s)
    = pending_after_cancel key s
  ∧ Memorija.next_ref (Memorija.set key value JUndefined s)
    = S (Memorija.next_ref s)
  ∧ Memorija.next_handle (Memorija.set key value JUndefined s)
    = Memorija.next_handle s.
Proof.
  destruct (cancelTimerForKey_frame key s) as (Hm & Hc & Hr & Hh).
  destruct (cancelTimerForKey_timers key s) as (Ht & Hp).
  unfold Memorija.set; simpl. by rewrite Ht, Hp, Hr, Hh.
Qed.

Lemma delete_timers key s :
  Memorija.timers (Memorija.delete key s).2 = timers_after_cancel key s
  ∧ Memorija.pending (Memorija.delete key s).2 = pending_after_cancel key s
  ∧ Memorija.next_ref (Memorija.delete key s).2 = Memorija.next_ref s
  ∧ Memorija.next_handle (Memorija.delete key s).2 = Memorija.next_handle s
  ∧ Memorija.clock (Memorija.delete key s).2 = Memorija.clock s.
Proof.
  destruct (cancelTimerForKey_frame key s) as (Hm & Hc & Hr & Hh).
  destruct (cancelTimerForKey_timers key s) as (Ht & Hp).
  unfold Memorija.delete; simpl. by rewrite Ht, Hp, Hr, Hh, Hc.
Qed.

(** A timer that is pending and due runs its callback. *)
Lemma fire_due h t s :
  Memorija.pending s !! h = Some t ->
  (Memorija.fire_at t ≤ Memorija.clock s)%Z ->
  Memorija.fire h s
  = {| Memorija.map := jsmap_delete (Memorija.cb_key t) (Memorija.map s);
       Memorija.timers := delete (Memorija.cb_entry t) (Memorija.timers s);
       Memorija.pending := delete h (Memorija.pending s);
       Memorija.clock := Memorija.clock s;
       Memorija.next_ref := Memorija.next_ref s;
       Memorija.next_handle := Memorija.next_handle s |}.
Proof.
  intros Hp Hdue. unfold Memorija.fire. rewrite Hp.
  by rewrite bool_decide_eq_true_2.
Qed.

(** A handle that is not pending, or not yet due, does nothing. *)
Lemma fire_idle h s :
  (∀ t, Memorija.pending s !! h = Some t ->
        (Memorija.clock s < Memorija.fire_at t)%Z) ->
  Memorija.fire h s = s.
Proof.
  intros Hidle. unfold Memorija.fire.
  destruct (Memorija.pending s !! h) as [t|] eqn:Hp; [|done].
  specialize (Hidle t eq_refl). rewrite bool_decide_eq_false_2; [done | lia].
Qed.

Lemma new_deadline_number now ttl :
  ttl ≠ JUndefined -> ttl ≠ JNaN ->
  new_deadline now ttl = JNum (now + Memorija.delay ttl).
Proof. by destruct ttl. Qed.

(** ** [expireAt] against [ttl] *)

(** C8.  For a present key and an absolute instant [i], [expireAt(k, i)]
    and [ttl(k, i - now)] called at the same clock reading leave the
    same state: the stored value is kept, the deadline is [i], and the
    timer installed for the new record is due at [i]. *)
Theorem expireAt_agrees_with_ttl
    (s : Memorija.state) (k : jsval) (i : Z) (r : Memorija.RawEntry) :
  Memorija.getRawEntry k s = Some r ->
  let sE := (Memorija.expireAt k (JNum i) s).2 in
  let sT := (Memorija.ttl k (JNum (i - Memorija.clock s)) s).2 in
  sE = sT
  ∧ ∃ r' h,
      Memorija.getRawEntry k sE = Some r'
      ∧ Memorija.slot1 r' = Memorija.slot1 r
      ∧ Memorija.slot0 r' = JNum i
      ∧ Memorija.timers sE !! Memorija.ref r' = Some h
      ∧ Memorija.pending sE !! h = Some (Memorija.mkTimer k (Memorija.ref r') i).
Proof.
  intros Hr sE sT.
  assert (HE : sE = Memorija.set k (Memorija.slot1 r)
                      (JNum (i - Memorija.clock s)) s).
  { unfold sE, Memorija.expireAt. by rewrite Hr. }
  assert (HT : sT = Memorija.set k (Memorija.slot1 r)
                      (JNum (i - Memorija.clock s)) s).
  { unfold sT, Memorija.ttl, Memorija.getEntry. by rewrite Hr. }
  split; [congruence|].
  rewrite HE.
  destruct (set_timers_with_ttl k (Memorija.slot1 r)
              (JNum (i - Memorija.clock s)) s) as (Ht & Hp & _); [done|].
  eexists _, (Memorija.next_handle s).
  split; [apply getRawEntry_set_eq|].
  cbn [Memorija.slot1 Memorija.slot0 Memorija.ref].
  split; [done|].
  split; [unfold new_deadline, js_add; simpl; f_equal; lia|].
  split.
  - rewrite Ht. apply lookup_insert_eq.
  - rewrite Hp, lookup_insert_eq. do 2 f_equal.
    unfold Memorija.delay; simpl. lia.
Qed.

Lemma expireAt_agrees_with_ttl_witness :
  let s := Memorija.set (VStr "k") (VStr "v") (JNum 100) (Memorija.constructor 7) in
  (Memorija.expireAt (VStr "k") (JNum 5000) s).2
  = (Memorija.ttl (VStr "k") (JNum (5000 - Memorija.clock s)) s).2.
Proof.
  refine (proj1 (expireAt_agrees_with_ttl
                   (Memorija.set (VStr "k") (VStr "v") (JNum 100)
                      (Memorija.constructor 7))
                   (VStr "k") 5000
                   (Memorija.mkRawEntry 0 (JNum 107) (VStr "v")) _)).
  reflexivity.
Defined.

(** ** Acceptance of every input *)

Lemma size_keys s : Memorija.size s = length (Memorija.keys s).
Proof.
  unfold Memorija.size, Memorija.keys, jsmap_keys. by rewrite length_fmap.
Qed.

(** C9.  The operations are total functions of their arguments and of
    the state: the source has no [throw], and each dereference of a
    looked-up record is guarded by a test for [undefined].  In
    particular [set(k, v, 0)] is accepted: the record's deadline is the
    current instant and its timer is due at once, so that the scheduler
    may run it without the clock advancing, which removes [k].  A [set]
    of an absent key always makes the map one larger, whatever its
    size. *)
Theorem set_zero_ttl_expires_at_once (s : Memorija.state) (k v : jsval) :
  let s' := Memorija.set k v (JNum 0) s in
  let r := Memorija.mkRawEntry (Memorija.next_ref s)
             (JNum (Memorija.clock s)) v in
  let h := Memorija.next_handle s in
  Memorija.getRawEntry k s' = Some r
  ∧ Memorija.timers s' !! Memorija.ref r = Some h
  ∧ Memorija.pending s' !! h
    = Some (Memorija.mkTimer k (Memorija.ref r) (Memorija.clock s))
  ∧ Memorija.clock s' = Memorija.clock s
  ∧ Memorija.has k s' = true
  ∧ Memorija.has k (Memorija.fire h s') = false
  ∧ (∀ s0 k0 v0 t0, Memorija.has k0 s0 = false ->
       Memorija.size (Memorija.set k0 v0 t0 s0) = S (Memorija.size s0))
  ∧ (∀ s0 k0 v0 t0, Memorija.has k0 s0 = true ->
       Memorija.size (Memorija.set k0 v0 t0 s0) = Memorija.size s0).
Proof.
  intros s' r h.
  destruct (set_timers_with_ttl k v (JNum 0) s) as (Ht & Hp & _); [done|].
  fold s' in Ht, Hp.
  assert (Hget : Memorija.getRawEntry k s' = Some r).
  { unfold s', r. rewrite getRawEntry_set_eq.
    unfold new_deadline, js_add; simpl. by rewrite Z.add_0_r. }
  assert (Hpend : Memorija.pending s' !! h
                  = Some (Memorija.mkTimer k (Memorija.ref r) (Memorija.clock s))).
  { rewrite Hp. unfold h. rewrite lookup_insert_eq.
    unfold Memorija.delay; simpl. by rewrite Z.add_0_r. }
  assert (Hclock : Memorija.clock s' = Memorija.clock s) by apply set_clock.
  repeat split; try done.
  - rewrite Ht. apply lookup_insert_eq.
  - apply has_getRawEntry. by rewrite Hget.
  - rewrite (fire_due _ _ _ Hpend);
      [|rewrite Hclock; cbn [Memorija.fire_at]; lia].
    unfold Memorija.has, jsmap_has; simpl.
    by rewrite jsmap_get_delete_eq.
  - intros s0 k0 v0 t0 H. unfold Memorija.size. rewrite set_map.
    by apply jsmap_length_set_absent.
  - intros s0 k0 v0 t0 H. rewrite !size_keys.
    unfold Memorija.keys. rewrite set_map.
    by rewrite jsmap_keys_set_present.
Qed.

(** ** The result for a missing key *)

(** C4, counterexample.  [get] hands back the stored value itself, so a
    key that holds [undefined] reads exactly like a key that is
    missing. *)
Lemma get_conflates_missing_with_stored_undefined :
  let s := Memorija.set (VStr "k") VUndefined JUndefined
             (Memorija.constructor 0) in
  Memorija.has (VStr "k") s = true
  ∧ Memorija.has (VStr "missing") s = false
  ∧ Memorija.get (VStr "k") s = Memorija.get (VStr "missing") s.
Proof. by vm_compute. Qed.

(** The getter mode of [expireAt] returns the raw first slot of the
    record, which is [undefined] for a key set without a TTL. *)
Lemma expireAt_getter_of_key_without_ttl :
  let s := Memorija.set (VStr "k") (VStr "v") JUndefined
             (Memorija.constructor 0) in
  Memorija.has (VStr "k") s = true
  ∧ (Memorija.expireAt (VStr "k") JUndefined s).1 = JUndefined
  ∧ (Memorija.expireAt (VStr "missing") JUndefined s).1 = JUndefined.
Proof. by vm_compute. Qed.

(** C4, amended.  For a missing key [getEntry] and the getter mode of
    [ttl] return [undefined], which differs from what they return for
    any present key: an entry object, respectively [null] or a number,
    also when the stored value is [undefined] or the key never expires.
    The getter mode of [expireAt] returns a number for a present key
    that has a deadline.  [get] returns the stored value, so its result
    for a present key differs from the one for a missing key exactly
    when the stored value is not [undefined].  None of these calls
    changes the state. *)
Theorem absent_result_of_getters
    (s : Memorija.state) (k k' : jsval) (r : Memorija.RawEntry) :
  Memorija.getRawEntry k s = None ->
  Memorija.getRawEntry k' s = Some r ->
  (Memorija.getEntry k s = None
   ∧ Memorija.getEntry k' s
     = Some (MemorijaEntry.constructor (Memorija.slot1 r) (Memorija.slot0 r)))
  ∧ ((Memorija.ttl k JUndefined s).1 = JUndefined
     ∧ (Memorija.ttl k' JUndefined s).1 ≠ JUndefined
     ∧ (Memorija.slot0 r = JUndefined ->
        (Memorija.ttl k' JUndefined s).1 = JNull))
  ∧ ((Memorija.expireAt k JUndefined s).1 = JUndefined
     ∧ (∀ d, Memorija.slot0 r = JNum d ->
          (Memorija.expireAt k' JUndefined s).1 = JNum d))
  ∧ (Memorija.get k s = VUndefined
     ∧ Memorija.get k' s = Memorija.slot1 r
     ∧ (Memorija.get k' s ≠ Memorija.get k s
        <-> Memorija.slot1 r ≠ VUndefined))
  ∧ (Memorija.ttl k JUndefined s).2 = s
  ∧ (Memorija.ttl k' JUndefined s).2 = s
  ∧ (Memorija.expireAt k JUndefined s).2 = s
  ∧ (Memorija.expireAt k' JUndefined s).2 = s.
Proof.
  intros Hk Hk'.
  unfold Memorija.getEntry, Memorija.ttl, Memorija.expireAt, Memorija.get,
    Memorija.getEntry.
  rewrite Hk, Hk'. simpl.
  repeat split; try done.
  - unfold MemorijaEntry.ttl, MemorijaEntry.constructor; simpl.
    by destruct (Memorija.slot0 r).
  - by intros ->.
Qed.

Lemma absent_result_of_getters_witness :
  let s := Memorija.set (VStr "k") VUndefined JUndefined
             (Memorija.constructor 0) in
  Memorija.getEntry (VStr "missing") s = None
  ∧ Memorija.getEntry (VStr "k") s
    = Some (MemorijaEntry.constructor VUndefined JUndefined).
Proof.
  refine (proj1 (absent_result_of_getters
                   (Memorija.set (VStr "k") VUndefined JUndefined
                      (Memorija.constructor 0))
                   (VStr "missing") (VStr "k")
                   (Memorija.mkRawEntry 0 JUndefined VUndefined) _ _));
    reflexivity.
Defined.

(** ** [ttl(k, null)] *)

(** C1, what the code does.  [ttl] forwards [null] to [set], whose test
    [ttl !== undefined] lets [null] through: the deadline becomes
    [Date.now() + null], the current instant, and a timer with delay
    [null] is installed.  The getter then reports [0] rather than
    [null], and the timer, due at once, removes the key.  The setter
    mode of [expireAt] treats [null] separately and does leave a record
    without deadline or timer. *)
Theorem ttl_null_installs_a_due_timer :
  let k := VStr "k" in
  let s0 := Memorija.set k (VStr "v") (JNum 1000) (Memorija.constructor 0) in
  let s1 := (Memorija.ttl k JNull s0).2 in
  let s2 := (Memorija.expireAt k JNull s0).2 in
  (Memorija.ttl k JUndefined s1).1 = JNum 0
  ∧ Memorija.getRawEntry k s1 = Some (Memorija.mkRawEntry 1 (JNum 0) (VStr "v"))
  ∧ Memorija.pending s1 !! 1 = Some (Memorija.mkTimer k 1 0)
  ∧ Memorija.has k (Memorija.fire 1 s1) = false
  ∧ (Memorija.ttl k JUndefined s2).1 = JNull
  ∧ Memorija.getRawEntry k s2
    = Some (Memorija.mkRawEntry 1 JUndefined (VStr "v"))
  ∧ Memorija.pending s2 = ∅.
Proof. by vm_compute. Qed.

(** ** The invariant of records and timers *)

Lemma timer_inv_constructor now : timer_inv (Memorija.constructor now).
Proof.
  split; simpl; try done.
  - intros h. rewrite lookup_empty. by intros [? ?].
  - apply NoDup_nil_2.
Qed.

(** Handles filed in the [WeakMap] are old: both the record and the
    handle were allocated before. *)
Lemma timers_fresh s x h :
  timer_inv s ->
  Memorija.timers s !! x = Some h ->
  x < Memorija.next_ref s ∧ h < Memorija.next_handle s.
Proof.
  intros Hinv Hx.
  destruct (inv_timers s Hinv x h Hx) as (t & Hp & Ht).
  destruct (inv_pending s Hinv h t Hp) as (r & Hr & Href & _).
  split.
  - rewrite <- Ht, <- Href. by eapply inv_ref_fresh.
  - apply (inv_handle_fresh s Hinv). by rewrite Hp.
Qed.

(** What cancelling the timer of [k] leaves behind: exactly the timers
    of the other keys. *)
Lemma pending_after_cancel_Some s k h t :
  timer_inv s ->
  pending_after_cancel k s !! h = Some t ->
  Memorija.pending s !! h = Some t ∧ Memorija.cb_key t ≠ k.
Proof.
  intros Hinv. unfold pending_after_cancel.
  destruct (Memorija.getRawEntry k s) as [r0|] eqn:Hk.
  - destruct (Memorija.timers s !! Memorija.ref r0) as [h0|] eqn:Hh0.
    + intros [Hne Hp]%lookup_delete_Some. split; [done|].
      intros <-. destruct (inv_pending s Hinv h t Hp) as (r & Hr & _ & Hth & _).
      congruence.
    + intros Hp. split; [done|].
      intros <-. destruct (inv_pending s Hinv h t Hp) as (r & Hr & _ & Hth & _).
      congruence.
  - intros Hp. split; [done|].
    intros <-. destruct (inv_pending s Hinv h t Hp) as (r & Hr & _).
    congruence.
Qed.

Lemma pending_after_cancel_other s k h t :
  timer_inv s ->
  Memorija.pending s !! h = Some t ->
  Memorija.cb_key t ≠ k ->
  pending_after_cancel k s !! h = Some t.
Proof.
  intros Hinv Hp Hne. unfold pending_after_cancel.
  destruct (Memorija.getRawEntry k s) as [r0|] eqn:Hk; [|done].
  destruct (Memorija.timers s !! Memorija.ref r0) as [h0|] eqn:Hh0; [|done].
  rewrite lookup_delete_ne; [done|].
  intros <-.
  destruct (inv_timers s Hinv _ _ Hh0) as (t0 & Hp0 & Ht0).
  assert (t0 = t) as -> by congruence.
  destruct (inv_pending s Hinv _ _ Hp) as (r & Hr & Href & _).
  apply Hne. eapply (inv_ref_inj s Hinv); [exact Hr | exact Hk | congruence].
Qed.

Lemma timers_after_cancel_Some s k x h :
  timer_inv s ->
  timers_after_cancel k s !! x = Some h ->
  Memorija.timers s !! x = Some h
  ∧ ∃ t, pending_after_cancel k s !! h = Some t ∧ Memorija.cb_entry t = x.
Proof.
  intros Hinv HT.
  assert (Hx : Memorija.timers s !! x = Some h
               ∧ ∀ r0, Memorija.getRawEntry k s = Some r0 -> x ≠ Memorija.ref r0).
  { unfold timers_after_cancel in HT.
    destruct (Memorija.getRawEntry k s) as [r0|] eqn:Hk.
    - apply lookup_delete_Some in HT as [Hne Hx]. split; [done|].
      intros ? [= <-]. done.
    - split; [done|]. intros ? [=]. }
  destruct Hx as [Hx Hne]. split; [done|].
  destruct (inv_timers s Hinv _ _ Hx) as (t & Hp & Ht).
  exists t. split; [|done].
  apply pending_after_cancel_other; [done..|].
  intros Hkey.
  destruct (inv_pending s Hinv _ _ Hp) as (r & Hr & Href & _).
  rewrite Hkey in Hr. apply (Hne r Hr). congruence.
Qed.

Lemma timers_after_cancel_other s k k' r' :
  timer_inv s ->
  k' ≠ k ->
  Memorija.getRawEntry k' s = Some r' ->
  timers_after_cancel k s !! Memorija.ref r'
  = Memorija.timers s !! Memorija.ref r'.
Proof.
  intros Hinv Hne Hr'. unfold timers_after_cancel.
  destruct (Memorija.getRawEntry k s) as [r0|] eqn:Hk; [|done].
  apply lookup_delete_ne. intros Heq.
  apply Hne. symmetry.
  by eapply (inv_ref_inj s Hinv); [exact Hk | exact Hr' |].
Qed.

Lemma timers_after_cancel_fresh s k :
  timer_inv s ->
  timers_after_cancel k s !! Memorija.next_ref s = None.
Proof.
  intros Hinv.
  destruct (timers_after_cancel k s !! Memorija.next_ref s) as [h|] eqn:E;
    [|done].
  apply timers_after_cancel_Some in E as [Hx _]; [|done].
  apply (timers_fresh s _ _ Hinv) in Hx as [Hlt _]. lia.
Qed.

Lemma timer_inv_delete k s :
  timer_inv s -> timer_inv (Memorija.delete k s).2.
Proof.
  intros Hinv.
  destruct (delete_timers k s) as (Ht & Hp & Hr & Hh & _).
  assert (Hget : ∀ k' r', Memorija.getRawEntry k' (Memorija.delete k s).2 = Some r'
                          -> k' ≠ k ∧ Memorija.getRawEntry k' s = Some r').
  { intros k' r'. unfold Memorija.getRawEntry. rewrite delete_map.
    destruct (decide (k = k')) as [->|Hne].
    - by rewrite jsmap_get_delete_eq.
    - rewrite jsmap_get_delete_ne; [|done]. intros ?. split; congruence. }
  split.
  - intros h t. rewrite Hp. intros [Hpt Hkey]%pending_after_cancel_Some; [|done].
    destruct (inv_pending s Hinv _ _ Hpt) as (r & Href & Hcb & Hth & Hs0).
    exists r. split; [|split; [done|split; [|done]]].
    + unfold Memorija.getRawEntry. rewrite delete_map.
      rewrite jsmap_get_delete_ne; [done | congruence].
    + rewrite Ht. by rewrite (timers_after_cancel_other s k _ r Hinv Hkey Href).
  - intros x h. rewrite Ht, Hp. by apply timers_after_cancel_Some.
  - intros k' r' [Hne Hr']%Hget. rewrite Ht.
    rewrite (timers_after_cancel_other s k k' r' Hinv Hne Hr').
    by apply (inv_deadline s Hinv k').
  - intros k' r' [Hne Hr']%Hget. rewrite Hr. by eapply inv_ref_fresh.
  - intros h [t Hpt]. rewrite Hp in Hpt. rewrite Hh.
    apply pending_after_cancel_Some in Hpt as [Hpt _]; [|done].
    apply (inv_handle_fresh s Hinv). by rewrite Hpt.
  - intros k1 k2 r1 r2 [_ H1]%Hget [_ H2]%Hget. by apply (inv_ref_inj s Hinv).
  - unfold Memorija.keys. rewrite delete_map.
    apply jsmap_NoDup_delete, (inv_keys s Hinv).
Qed.

Lemma timer_inv_set k v ttl s :
  ttl ≠ JNaN -> timer_inv s -> timer_inv (Memorija.set k v ttl s).
Proof.
  intros Hnan Hinv.
  set (e := Memorija.mkRawEntry (Memorija.next_ref s)
              (new_deadline (Memorija.clock s) ttl) v).
  assert (Hget : ∀ k' r', Memorija.getRawEntry k' (Memorija.set k v ttl s) = Some r'
                 -> (k' = k ∧ r' = e)
                    ∨ (k' ≠ k ∧ Memorija.getRawEntry k' s = Some r')).
  { intros k' r'. destruct (decide (k = k')) as [->|Hne].
    - rewrite getRawEntry_set_eq. intros [= <-]. by left.
    - rewrite getRawEntry_set_ne; [|done]. intros ?. right. split; congruence. }
  assert (Hkeys : NoDup (Memorija.keys (Memorija.set k v ttl s))).
  { unfold Memorija.keys. rewrite set_map.
    apply jsmap_NoDup_set, (inv_keys s Hinv). }
  assert (Hinj : ∀ k1 k2 r1 r2,
             Memorija.getRawEntry k1 (Memorija.set k v ttl s) = Some r1 ->
             Memorija.getRawEntry k2 (Memorija.set k v ttl s) = Some r2 ->
             Memorija.ref r1 = Memorija.ref r2 -> k1 = k2).
  { intros k1 k2 r1 r2 [[-> ->]|[Hn1 H1]]%Hget [[-> ->]|[Hn2 H2]]%Hget Href;
      [done| | |by apply (inv_ref_inj s Hinv k1 k2 r1 r2)].
    - apply (inv_ref_fresh s Hinv) in H2. simpl in Href. lia.
    - apply (inv_ref_fresh s Hinv) in H1. simpl in Href. lia. }
  destruct (decide (ttl = JUndefined)) as [->|Httl].
  - (* no TTL: the old timer is cancelled, none is installed *)
    destruct (set_timers_without_ttl k v s) as (Ht & Hp & Hr & Hh).
    split; [| | | | |exact Hinj|exact Hkeys].
    + intros h t. rewrite Hp.
      intros [Hpt Hkey]%pending_after_cancel_Some; [|done].
      destruct (inv_pending s Hinv _ _ Hpt) as (r & Href & Hcb & Hth & Hs0).
      exists r. split; [|split; [done|split; [|done]]].
      * rewrite getRawEntry_set_ne; [done | congruence].
      * rewrite Ht. by rewrite (timers_after_cancel_other s k _ r Hinv Hkey Href).
    + intros x h. rewrite Ht, Hp. by apply timers_after_cancel_Some.
    + intros k' r' [[-> ->]|[Hne Hr']]%Hget; rewrite Ht.
      * simpl. split; [intros _; by apply timers_after_cancel_fresh | done].
      * rewrite (timers_after_cancel_other s k k' r' Hinv Hne Hr').
        by apply (inv_deadline s Hinv k').
    + intros k' r' [[-> ->]|[Hne Hr']]%Hget; rewrite Hr; simpl; [lia|].
      apply (inv_ref_fresh s Hinv) in Hr'. lia.
    + intros h [t Hpt]. rewrite Hp in Hpt. rewrite Hh.
      apply pending_after_cancel_Some in Hpt as [Hpt _]; [|done].
      apply (inv_handle_fresh s Hinv). by rewrite Hpt.
  - (* a TTL: the old timer is cancelled and a new one installed *)
    destruct (set_timers_with_ttl k v ttl s Httl) as (Ht & Hp & Hr & Hh).
    assert (He0 : Memorija.slot0 e
                  = JNum (Memorija.clock s + Memorija.delay ttl)).
    { by apply new_deadline_number. }
    split; [| | | | |exact Hinj|exact Hkeys].
    + intros h t. rewrite Hp.
      destruct (decide (Memorija.next_handle s = h)) as [<-|Hnh].
      * rewrite lookup_insert_eq. intros [= <-]. simpl.
        exists e. split; [apply getRawEntry_set_eq|].
        split; [done|]. split; [|done].
        rewrite Ht. apply lookup_insert_eq.
      * rewrite lookup_insert_ne; [|done].
        intros [Hpt Hkey]%pending_after_cancel_Some; [|done].
        destruct (inv_pending s Hinv _ _ Hpt) as (r & Href & Hcb & Hth & Hs0).
        exists r. split; [|split; [done|split; [|done]]].
        -- rewrite getRawEntry_set_ne; [done | congruence].
        -- rewrite Ht. apply (inv_ref_fresh s Hinv) in Href as Hlt.
           rewrite lookup_insert_ne; [|lia].
           by rewrite (timers_after_cancel_other s k _ r Hinv Hkey Href).
    + intros x h. rewrite Ht, Hp.
      destruct (decide (Memorija.next_ref s = x)) as [<-|Hnx].
      * rewrite lookup_insert_eq. intros [= <-].
        rewrite lookup_insert_eq. by eexists.
      * rewrite lookup_insert_ne; [|done]. intros HT.
        destruct (timers_after_cancel_Some s k x h Hinv HT) as (Hx & t & Hpt & Hcb).
        apply (timers_fresh s _ _ Hinv) in Hx as [_ Hlt].
        exists t. split; [|done]. rewrite lookup_insert_ne; [done | lia].
    + intros k' r' [[-> ->]|[Hne Hr']]%Hget; rewrite Ht.
      * simpl. split.
        -- intros Hu. fold e in He0. simpl in He0. congruence.
        -- intros _. rewrite lookup_insert_eq. by eexists.
      * apply (inv_ref_fresh s Hinv) in Hr' as Hlt.
        rewrite lookup_insert_ne; [|lia].
        rewrite (timers_after_cancel_other s k k' r' Hinv Hne Hr').
        by apply (inv_deadline s Hinv k').
    + intros k' r' [[-> ->]|[Hne Hr']]%Hget; rewrite Hr; simpl; [lia|].
      apply (inv_ref_fresh s Hinv) in Hr'. lia.
    + intros h [t Hpt]. rewrite Hp in Hpt. rewrite Hh.
      destruct (decide (Memorija.next_handle s = h)) as [<-|Hnh]; [lia|].
      rewrite lookup_insert_ne in Hpt; [|done].
      apply pending_after_cancel_Some in Hpt as [Hpt _]; [|done].
      assert (h < Memorija.next_handle s); [|lia].
      apply (inv_handle_fresh s Hinv). by rewrite Hpt.
Qed.

Lemma state_eq (s1 s2 : Memorija.state) :
  Memorija.map s1 = Memorija.map s2 ->
  Memorija.timers s1 = Memorija.timers s2 ->
  Memorija.pending s1 = Memorija.pending s2 ->
  Memorija.clock s1 = Memorija.clock s2 ->
  Memorija.next_ref s1 = Memorija.next_ref s2 ->
  Memorija.next_handle s1 = Memorija.next_handle s2 ->
  s1 = s2.
Proof. destruct s1, s2; simpl; intros; by subst. Qed.

(** Under the invariant, a timer that fires does to the state exactly
    what [delete] of its key does: the record it removes is the one it
    was installed for. *)
Lemma fire_as_delete s h t :
  timer_inv s ->
  Memorija.pending s !! h = Some t ->
  (Memorija.fire_at t ≤ Memorija.clock s)%Z ->
  Memorija.fire h s = (Memorija.delete (Memorija.cb_key t) s).2.
Proof.
  intros Hinv Hp Hdue.
  destruct (inv_pending s Hinv _ _ Hp) as (r & Hr & Href & Hth & _).
  destruct (delete_timers (Memorija.cb_key t) s) as (Ht & Hpd & Hnr & Hnh & Hc).
  rewrite (fire_due h t s Hp Hdue).
  apply state_eq.
  - by rewrite delete_map.
  - rewrite Ht. unfold timers_after_cancel. by rewrite Hr, Href.
  - rewrite Hpd. unfold pending_after_cancel. by rewrite Hr, Hth.
  - by rewrite Hc.
  - by rewrite Hnr.
  - by rewrite Hnh.
Qed.

Lemma timer_inv_fire h s : timer_inv s -> timer_inv (Memorija.fire h s).
Proof.
  intros Hinv.
  destruct (Memorija.pending s !! h) as [t|] eqn:Hp.
  - destruct (decide (Memorija.fire_at t ≤ Memorija.clock s)%Z) as [Hdue|Hnot].
    + rewrite (fire_as_delete s h t Hinv Hp Hdue). by apply timer_inv_delete.
    + rewrite fire_idle; [done|]. intros t' Ht'. assert (t' = t) by congruence.
      subst. lia.
  - rewrite fire_idle; [done|]. intros t' Ht'. congruence.
Qed.

Lemma timer_inv_tick d s : timer_inv s -> timer_inv (Memorija.tick d s).
Proof.
  intros [H1 H2 H3 H4 H5 H6 H7].
  split; [exact H1 | exact H2 | exact H3 | exact H4 | exact H5 | exact H6
         | exact H7].
Qed.

(** [cancelTimers]: the loop over the stored records. *)
Lemma cancelTimers_loop (l : list (jsval * Memorija.RawEntry)) s :
  let s' := fold_left
              (fun acc kv => Memorija.cancelTimerForRawEntry (Some kv.2) acc)
              l s in
  Memorija.clock s' = Memorija.clock s
  ∧ Memorija.next_ref s' = Memorija.next_ref s
  ∧ Memorija.next_handle s' = Memorija.next_handle s
  ∧ (∀ h t, Memorija.pending s' !! h = Some t ->
       Memorija.pending s !! h = Some t
       ∧ ∀ kv, kv ∈ l -> Memorija.timers s !! Memorija.ref kv.2 ≠ Some h)
  ∧ (∀ x h, Memorija.timers s' !! x = Some h ->
       Memorija.timers s !! x = Some h
       ∧ ∀ kv, kv ∈ l -> Memorija.ref kv.2 ≠ x).
Proof.
  revert s. induction l as [|[k r] l IH]; intros s; simpl.
  - repeat split; try done; intros kv Hin; by apply elem_of_nil in Hin.
  - set (s1 := Memorija.cancelTimerForRawEntry (Some r) s).
    destruct (IH s1) as (Hc & Hr & Hh & Hp & Ht).
    assert (Ht1 : Memorija.timers s1 = delete (Memorija.ref r) (Memorija.timers s)).
    { unfold s1; simpl. by destruct (Memorija.timers s !! Memorija.ref r). }
    assert (Hp1 : ∀ h t, Memorija.pending s1 !! h = Some t ->
                    Memorija.pending s !! h = Some t
                    ∧ Memorija.timers s !! Memorija.ref r ≠ Some h).
    { intros h t. unfold s1; simpl.
      destruct (Memorija.timers s !! Memorija.ref r) as [h0|]; simpl.
      - intros [Hne Hpt]%lookup_delete_Some. split; [done|].
        by intros [= ->].
      - done. }
    assert (Hf1 : Memorija.clock s1 = Memorija.clock s
                  ∧ Memorija.next_ref s1 = Memorija.next_ref s
                  ∧ Memorija.next_handle s1 = Memorija.next_handle s).
    { unfold s1; simpl. by destruct (Memorija.timers s !! Memorija.ref r). }
    destruct Hf1 as (Hc1 & Hr1 & Hh1).
    split; [by etrans|]. split; [by etrans|]. split; [by etrans|]. split.
    + intros h t Hpt. destruct (Hp h t Hpt) as [Hpt1 Hl].
      destruct (Hp1 h t Hpt1) as [Hpt0 Hr0]. split; [done|].
      intros kv [->|Hin]%elem_of_cons; [done|].
      specialize (Hl kv Hin). rewrite Ht1 in Hl.
      destruct (decide (Memorija.ref r = Memorija.ref kv.2)) as [Heq|Hne].
      * by rewrite <- Heq.
      * by rewrite lookup_delete_ne in Hl.
    + intros x h Hx. destruct (Ht x h Hx) as [Hx1 Hl].
      rewrite Ht1 in Hx1. apply lookup_delete_Some in Hx1 as [Hne Hx0].
      split; [done|].
      intros kv [->|Hin]%elem_of_cons; [done|]. by apply Hl.
Qed.

Lemma timer_inv_clear s : timer_inv s -> timer_inv (Memorija.clear s).
Proof.
  intros Hinv.
  destruct (cancelTimers_loop (Memorija.map s) s) as (Hc & Hr & Hh & Hp & Ht).
  fold (Memorija.cancelTimers s) in Hc, Hr, Hh, Hp, Ht.
  assert (Hnone : ∀ h t, Memorija.pending (Memorija.cancelTimers s) !! h = Some t
                         -> False).
  { intros h t Hpt. destruct (Hp h t Hpt) as [Hpt0 Hl].
    destruct (inv_pending s Hinv _ _ Hpt0) as (r & Hget & _ & Hth & _).
    apply jsmap_get_Some_elem in Hget. by apply (Hl _ Hget). }
  split; simpl.
  - intros h t Hpt. by destruct (Hnone h t Hpt).
  - intros x h Hx. destruct (Ht x h Hx) as [Hx0 Hl].
    destruct (inv_timers s Hinv _ _ Hx0) as (t & Hpt & Hcb).
    destruct (inv_pending s Hinv _ _ Hpt) as (r & Hget & Href & _).
    apply jsmap_get_Some_elem in Hget. destruct (Hl _ Hget). simpl. congruence.
  - done.
  - done.
  - intros h [t Hpt]. by destruct (Hnone h t Hpt).
  - done.
  - apply NoDup_nil_2.
Qed.

Lemma timer_inv_exec e s :
  Memorija.well_typed e -> timer_inv s -> timer_inv (Memorija.exec e s).
Proof.
  intros Hwt Hinv.
  destruct e as [k v t|k| |k t|k x|d|h];
    cbn [Memorija.exec Memorija.well_typed] in *.
  - by apply timer_inv_set.
  - by apply timer_inv_delete.
  - by apply timer_inv_clear.
  - unfold Memorija.ttl. destruct (Memorija.getEntry k s); [|done].
    destruct t; cbn [snd]; try done; by apply timer_inv_set.
  - unfold Memorija.expireAt. destruct (Memorija.getRawEntry k s); [|done].
    destruct x; cbn [snd]; try done; by apply timer_inv_set.
  - by apply timer_inv_tick.
  - by apply timer_inv_fire.
Qed.

Lemma reachable_timer_inv s : Memorija.reachable s -> timer_inv s.
Proof.
  induction 1 as [now|e s _ IH Hwt].
  - apply timer_inv_constructor.
  - by apply timer_inv_exec.
Qed.

(** ** Ownership of timers, whatever the arguments *)

Lemma owner_inv_constructor now : owner_inv (Memorija.constructor now).
Proof.
  split; simpl; try done.
  - intros h. rewrite lookup_empty. by intros [? ?].
  - apply NoDup_nil_2.
Qed.

Lemma own_timers_fresh s x h :
  owner_inv s ->
  Memorija.timers s !! x = Some h ->
  x < Memorija.next_ref s ∧ h < Memorija.next_handle s.
Proof.
  intros Hinv Hx.
  destruct (own_timers s Hinv x h Hx) as (t & Hp & Ht).
  destruct (own_pending s Hinv h t Hp) as (r & Hr & Href & _).
  split.
  - rewrite <- Ht, <- Href. by eapply own_ref_fresh.
  - apply (own_handle_fresh s Hinv). by rewrite Hp.
Qed.

Lemma own_pending_after_cancel_Some s k h t :
  owner_inv s ->
  pending_after_cancel k s !! h = Some t ->
  Memorija.pending s !! h = Some t ∧ Memorija.cb_key t ≠ k.
Proof.
  intros Hinv. unfold pending_after_cancel.
  destruct (Memorija.getRawEntry k s) as [r0|] eqn:Hk.
  - destruct (Memorija.timers s !! Memorija.ref r0) as [h0|] eqn:Hh0.
    + intros [Hne Hp]%lookup_delete_Some. split; [done|].
      intros <-. destruct (own_pending s Hinv h t Hp) as (r & Hr & _ & Hth).
      congruence.
    + intros Hp. split; [done|].
      intros <-. destruct (own_pending s Hinv h t Hp) as (r & Hr & _ & Hth).
      congruence.
  - intros Hp. split; [done|].
    intros <-. destruct (own_pending s Hinv h t Hp) as (r & Hr & _).
    congruence.
Qed.

Lemma own_pending_after_cancel_other s k h t :
  owner_inv s ->
  Memorija.pending s !! h = Some t ->
  Memorija.cb_key t ≠ k ->
  pending_after_cancel k s !! h = Some t.
Proof.
  intros Hinv Hp Hne. unfold pending_after_cancel.
  destruct (Memorija.getRawEntry k s) as [r0|] eqn:Hk; [|done].
  destruct (Memorija.timers s !! Memorija.ref r0) as [h0|] eqn:Hh0; [|done].
  rewrite lookup_delete_ne; [done|].
  intros <-.
  destruct (own_timers s Hinv _ _ Hh0) as (t0 & Hp0 & Ht0).
  assert (t0 = t) as -> by congruence.
  destruct (own_pending s Hinv _ _ Hp) as (r & Hr & Href & _).
  apply Hne. eapply (own_ref_inj s Hinv); [exact Hr | exact Hk | congruence].
Qed.

Lemma own_timers_after_cancel_Some s k x h :
  owner_inv s ->
  timers_after_cancel k s !! x = Some h ->
  Memorija.timers s !! x = Some h
  ∧ ∃ t, pending_after_cancel k s !! h = Some t ∧ Memorija.cb_entry t = x.
Proof.
  intros Hinv HT.
  assert (Hx : Memorija.timers s !! x = Some h
               ∧ ∀ r0, Memorija.getRawEntry k s = Some r0 -> x ≠ Memorija.ref r0).
  { unfold timers_after_cancel in HT.
    destruct (Memorija.getRawEntry k s) as [r0|] eqn:Hk.
    - apply lookup_delete_Some in HT as [Hne Hx]. split; [done|].
      intros ? [= <-]. done.
    - split; [done|]. intros ? [=]. }
  destruct Hx as [Hx Hne]. split; [done|].
  destruct (own_timers s Hinv _ _ Hx) as (t & Hp & Ht).
  exists t. split; [|done].
  apply own_pending_after_cancel_other; [done..|].
  intros Hkey.
  destruct (own_pending s Hinv _ _ Hp) as (r & Hr & Href & _).
  rewrite Hkey in Hr. apply (Hne r Hr). congruence.
Qed.

Lemma own_timers_after_cancel_other s k k' r' :
  owner_inv s ->
  k' ≠ k ->
  Memorija.getRawEntry k' s = Some r' ->
  timers_after_cancel k s !! Memorija.ref r'
  = Memorija.timers s !! Memorija.ref r'.
Proof.
  intros Hinv Hne Hr'. unfold timers_after_cancel.
  destruct (Memorija.getRawEntry k s) as [r0|] eqn:Hk; [|done].
  apply lookup_delete_ne. intros Heq.
  apply Hne. symmetry.
  by eapply (own_ref_inj s Hinv); [exact Hk | exact Hr' |].
Qed.

Lemma own_timers_after_cancel_fresh s k :
  owner_inv s ->
  timers_after_cancel k s !! Memorija.next_ref s = None.
Proof.
  intros Hinv.
  destruct (timers_after_cancel k s !! Memorija.next_ref s) as [h|] eqn:E;
    [|done].
  apply own_timers_after_cancel_Some in E as [Hx _]; [|done].
  apply (own_timers_fresh s _ _ Hinv) in Hx as [Hlt _]. lia.
Qed.

Lemma owner_inv_delete k s :
  owner_inv s -> owner_inv (Memorija.delete k s).2.
Proof.
  intros Hinv.
  destruct (delete_timers k s) as (Ht & Hp & Hr & Hh & _).
  assert (Hget : ∀ k' r', Memorija.getRawEntry k' (Memorija.delete k s).2 = Some r'
                          -> k' ≠ k ∧ Memorija.getRawEntry k' s = Some r').
  { intros k' r'. unfold Memorija.getRawEntry. rewrite delete_map.
    destruct (decide (k = k')) as [->|Hne].
    - by rewrite jsmap_get_delete_eq.
    - rewrite jsmap_get_delete_ne; [|done]. intros ?. split; congruence. }
  split.
  - intros h t. rewrite Hp.
    intros [Hpt Hkey]%own_pending_after_cancel_Some; [|done].
    destruct (own_pending s Hinv _ _ Hpt) as (r & Href & Hcb & Hth).
    exists r. split; [|split; [done|]].
    + unfold Memorija.getRawEntry. rewrite delete_map.
      rewrite jsmap_get_delete_ne; [done | congruence].
    + rewrite Ht.
      by rewrite (own_timers_after_cancel_other s k _ r Hinv Hkey Href).
  - intros x h. rewrite Ht, Hp. by apply own_timers_after_cancel_Some.
  - intros k' r' [Hne Hr']%Hget. rewrite Ht.
    rewrite (own_timers_after_cancel_other s k k' r' Hinv Hne Hr').
    by apply (own_deadline s Hinv k').
  - intros k' r' [Hne Hr']%Hget. rewrite Hr. by eapply own_ref_fresh.
  - intros h [t Hpt]. rewrite Hp in Hpt. rewrite Hh.
    apply own_pending_after_cancel_Some in Hpt as [Hpt _]; [|done].
    apply (own_handle_fresh s Hinv). by rewrite Hpt.
  - intros k1 k2 r1 r2 [_ H1]%Hget [_ H2]%Hget. by apply (own_ref_inj s Hinv).
  - unfold Memorija.keys. rewrite delete_map.
    apply jsmap_NoDup_delete, (own_keys s Hinv).
Qed.

Lemma owner_inv_set k v ttl s :
  owner_inv s -> owner_inv (Memorija.set k v ttl s).
Proof.
  intros Hinv.
  set (e := Memorija.mkRawEntry (Memorija.next_ref s)
              (new_deadline (Memorija.clock s) ttl) v).
  assert (Hget : ∀ k' r', Memorija.getRawEntry k' (Memorija.set k v ttl s) = Some r'
                 -> (k' = k ∧ r' = e)
                    ∨ (k' ≠ k ∧ Memorija.getRawEntry k' s = Some r')).
  { intros k' r'. destruct (decide (k = k')) as [->|Hne].
    - rewrite getRawEntry_set_eq. intros [= <-]. by left.
    - rewrite getRawEntry_set_ne; [|done]. intros ?. right. split; congruence. }
  assert (Hinj : ∀ k1 k2 r1 r2,
             Memorija.getRawEntry k1 (Memorija.set k v ttl s) = Some r1 ->
             Memorija.getRawEntry k2 (Memorija.set k v ttl s) = Some r2 ->
             Memorija.ref r1 = Memorija.ref r2 -> k1 = k2).
  { intros k1 k2 r1 r2 [[-> ->]|[Hn1 H1]]%Hget [[-> ->]|[Hn2 H2]]%Hget Href;
      [done| | |by apply (own_ref_inj s Hinv k1 k2 r1 r2)].
    - apply (own_ref_fresh s Hinv) in H2. simpl in Href. lia.
    - apply (own_ref_fresh s Hinv) in H1. simpl in Href. lia. }
  assert (Hkeys : NoDup (Memorija.keys (Memorija.set k v ttl s))).
  { unfold Memorija.keys. rewrite set_map.
    apply jsmap_NoDup_set, (own_keys s Hinv). }
  destruct (decide (ttl = JUndefined)) as [->|Httl].
  - destruct (set_timers_without_ttl k v s) as (Ht & Hp & Hr & Hh).
    split; [| | | | |exact Hinj|exact Hkeys].
    + intros h t. rewrite Hp.
      intros [Hpt Hkey]%own_pending_after_cancel_Some; [|done].
      destruct (own_pending s Hinv _ _ Hpt) as (r & Href & Hcb & Hth).
      exists r. split; [|split; [done|]].
      * rewrite getRawEntry_set_ne; [done | congruence].
      * rewrite Ht.
        by rewrite (own_timers_after_cancel_other s k _ r Hinv Hkey Href).
    + intros x h. rewrite Ht, Hp. by apply own_timers_after_cancel_Some.
    + intros k' r' [[-> ->]|[Hne Hr']]%Hget; rewrite Ht.
      * simpl. split; [intros _; by apply own_timers_after_cancel_fresh | done].
      * rewrite (own_timers_after_cancel_other s k k' r' Hinv Hne Hr').
        by apply (own_deadline s Hinv k').
    + intros k' r' [[-> ->]|[Hne Hr']]%Hget; rewrite Hr; simpl; [lia|].
      apply (own_ref_fresh s Hinv) in Hr'. lia.
    + intros h [t Hpt]. rewrite Hp in Hpt. rewrite Hh.
      apply own_pending_after_cancel_Some in Hpt as [Hpt _]; [|done].
      apply (own_handle_fresh s Hinv). by rewrite Hpt.
  - destruct (set_timers_with_ttl k v ttl s Httl) as (Ht & Hp & Hr & Hh).
    assert (He0 : Memorija.slot0 e ≠ JUndefined).
    { unfold e, new_deadline, js_add; simpl.
      destruct ttl; simpl; done. }
    split; [| | | | |exact Hinj|exact Hkeys].
    + intros h t. rewrite Hp.
      destruct (decide (Memorija.next_handle s = h)) as [<-|Hnh].
      * rewrite lookup_insert_eq. intros [= <-]. simpl.
        exists e. split; [apply getRawEntry_set_eq|].
        split; [done|].
        rewrite Ht. apply lookup_insert_eq.
      * rewrite lookup_insert_ne; [|done].
        intros [Hpt Hkey]%own_pending_after_cancel_Some; [|done].
        destruct (own_pending s Hinv _ _ Hpt) as (r & Href & Hcb & Hth).
        exists r. split; [|split; [done|]].
        -- rewrite getRawEntry_set_ne; [done | congruence].
        -- rewrite Ht. apply (own_ref_fresh s Hinv) in Href as Hlt.
           rewrite lookup_insert_ne; [|lia].
           by rewrite (own_timers_after_cancel_other s k _ r Hinv Hkey Href).
    + intros x h. rewrite Ht, Hp.
      destruct (decide (Memorija.next_ref s = x)) as [<-|Hnx].
      * rewrite lookup_insert_eq. intros [= <-].
        rewrite lookup_insert_eq. by eexists.
      * rewrite lookup_insert_ne; [|done]. intros HT.
        destruct (own_timers_after_cancel_Some s k x h Hinv HT)
          as (Hx & t & Hpt & Hcb).
        apply (own_timers_fresh s _ _ Hinv) in Hx as [_ Hlt].
        exists t. split; [|done]. rewrite lookup_insert_ne; [done | lia].
    + intros k' r' [[-> ->]|[Hne Hr']]%Hget; rewrite Ht.
      * split.
        -- intros Hu. by destruct He0.
        -- intros _. simpl. rewrite lookup_insert_eq. by eexists.
      * apply (own_ref_fresh s Hinv) in Hr' as Hlt.
        rewrite lookup_insert_ne; [|lia].
        rewrite (own_timers_after_cancel_other s k k' r' Hinv Hne Hr').
        by apply (own_deadline s Hinv k').
    + intros k' r' [[-> ->]|[Hne Hr']]%Hget; rewrite Hr; simpl; [lia|].
      apply (own_ref_fresh s Hinv) in Hr'. lia.
    + intros h [t Hpt]. rewrite Hp in Hpt. rewrite Hh.
      destruct (decide (Memorija.next_handle s = h)) as [<-|Hnh]; [lia|].
      rewrite lookup_insert_ne in Hpt; [|done].
      apply own_pending_after_cancel_Some in Hpt as [Hpt _]; [|done].
      assert (h < Memorija.next_handle s); [|lia].
      apply (own_handle_fresh s Hinv). by rewrite Hpt.
Qed.

Lemma owner_inv_fire h s : owner_inv s -> owner_inv (Memorija.fire h s).
Proof.
  intros Hinv. unfold Memorija.fire.
  destruct (Memorija.pending s !! h) as [t|] eqn:Hp; [|done].
  case_bool_decide as Hdue; [|done].
  destruct (own_pending s Hinv _ _ Hp) as (r & Hr & Href & Hth).
  destruct (delete_timers (Memorija.cb_key t) s) as (Ht & Hpd & Hnr & Hnh & Hc).
  assert (Heq : Memorija.timer_callback (Memorija.cb_key t) (Memorija.cb_entry t)
                  {| Memorija.map := Memorija.map s;
                     Memorija.timers := Memorija.timers s;
                     Memorija.pending := delete h (Memorija.pending s);
                     Memorija.clock := Memorija.clock s;
                     Memorija.next_ref := Memorija.next_ref s;
                     Memorija.next_handle := Memorija.next_handle s |}
                = (Memorija.delete (Memorija.cb_key t) s).2).
  { apply state_eq.
    - by rewrite delete_map.
    - rewrite Ht. unfold timers_after_cancel. by rewrite Hr, Href.
    - rewrite Hpd. unfold pending_after_cancel. by rewrite Hr, Hth.
    - by rewrite Hc.
    - by rewrite Hnr.
    - by rewrite Hnh. }
  rewrite Heq. by apply owner_inv_delete.
Qed.

Lemma owner_inv_tick d s : owner_inv s -> owner_inv (Memorija.tick d s).
Proof.
  intros [H1 H2 H3 H4 H5 H6 H7].
  split; [exact H1 | exact H2 | exact H3 | exact H4 | exact H5 | exact H6
         | exact H7].
Qed.

Lemma owner_inv_clear s : owner_inv s -> owner_inv (Memorija.clear s).
Proof.
  intros Hinv.
  destruct (cancelTimers_loop (Memorija.map s) s) as (Hc & Hr & Hh & Hp & Ht).
  fold (Memorija.cancelTimers s) in Hc, Hr, Hh, Hp, Ht.
  assert (Hnone : ∀ h t, Memorija.pending (Memorija.cancelTimers s) !! h = Some t
                         -> False).
  { intros h t Hpt. destruct (Hp h t Hpt) as [Hpt0 Hl].
    destruct (own_pending s Hinv _ _ Hpt0) as (r & Hget & _ & Hth).
    apply jsmap_get_Some_elem in Hget. by apply (Hl _ Hget). }
  split; simpl.
  - intros h t Hpt. by destruct (Hnone h t Hpt).
  - intros x h Hx. destruct (Ht x h Hx) as [Hx0 Hl].
    destruct (own_timers s Hinv _ _ Hx0) as (t & Hpt & Hcb).
    destruct (own_pending s Hinv _ _ Hpt) as (r & Hget & Href & _).
    apply jsmap_get_Some_elem in Hget. destruct (Hl _ Hget). simpl. congruence.
  - done.
  - done.
  - intros h [t Hpt]. by destruct (Hnone h t Hpt).
  - done.
  - apply NoDup_nil_2.
Qed.

Lemma owner_inv_exec e s : owner_inv s -> owner_inv (Memorija.exec e s).
Proof.
  intros Hinv.
  destruct e as [k v t|k| |k t|k x|d|h]; cbn [Memorija.exec].
  - by apply owner_inv_set.
  - by apply owner_inv_delete.
  - by apply owner_inv_clear.
  - unfold Memorija.ttl. destruct (Memorija.getEntry k s); [|done].
    destruct t; cbn [snd]; try done; by apply owner_inv_set.
  - unfold Memorija.expireAt. destruct (Memorija.getRawEntry k s); [|done].
    destruct x; cbn [snd]; try done; by apply owner_inv_set.
  - by apply owner_inv_tick.
  - by apply owner_inv_fire.
Qed.

Lemma reachable_any_owner_inv s : reachable_any s -> owner_inv s.
Proof.
  induction 1 as [now|e s _ IH].
  - apply owner_inv_constructor.
  - by apply owner_inv_exec.
Qed.

Lemma owner_inv_timer_iff_deadline s : owner_inv s -> timer_iff_deadline s.
Proof.
  intros Hinv k r Hr. split.
  - intros Hd.
    destruct (proj2 (own_deadline s Hinv k r Hr) Hd) as [h Hh].
    destruct (own_timers s Hinv _ _ Hh) as (t & Hp & Hcb).
    destruct (own_pending s Hinv _ _ Hp) as (r' & Hr' & Href & _).
    exists h, t. repeat split; try done.
    eapply (own_ref_inj s Hinv); [exact Hr' | exact Hr | congruence].
  - intros (h & t & Hh & _) Hu.
    rewrite (proj1 (own_deadline s Hinv k r Hr) Hu) in Hh. done.
Qed.

Lemma reachable_in_range_reachable s :
  reachable_in_range s -> Memorija.reachable s.
Proof.
  induction 1 as [now|e s _ IH Hwt _].
  - apply Memorija.reachable_new.
  - by apply Memorija.reachable_step.
Qed.

(** ** Records and their timers *)

Lemma timer_inv_deadline_iff s : timer_inv s -> deadline_iff_live_timer s.
Proof.
  intros Hinv k r Hr. split; [split|].
  - intros Hd.
    destruct (proj2 (inv_deadline s Hinv k r Hr) Hd) as [h Hh].
    destruct (inv_timers s Hinv _ _ Hh) as (t & Hp & Hcb).
    destruct (inv_pending s Hinv _ _ Hp) as (r' & Hr' & Href & _).
    exists h, t. repeat split; try done.
    eapply (inv_ref_inj s Hinv); [exact Hr' | exact Hr | congruence].
  - intros (h & t & Hh & _) Hu.
    rewrite (proj1 (inv_deadline s Hinv k r Hr) Hu) in Hh. done.
  - intros h t (Hh & Hp & Hkey & Hcb).
    destruct (inv_pending s Hinv _ _ Hp) as (r' & Hr' & _ & _ & Hs0).
    rewrite Hkey in Hr'. congruence.
Qed.

(** C6, counterexample.  [new Memorija().set("k", "v", NaN)] reaches
    a state whose record has the deadline [NaN] and owns a live timer
    that is due at once: the timer's firing deadline is not the
    record's deadline. *)
Lemma nan_ttl_breaks_deadline_of_timer :
  let s := Memorija.set (VStr "k") (VStr "v") JNaN (Memorija.constructor 42) in
  reachable_any s ∧ ¬ deadline_iff_live_timer s.
Proof.
  split.
  - apply (any_step (Memorija.ESet (VStr "k") (VStr "v") JNaN)
             (Memorija.constructor 42) (any_new 42)).
  - intros H.
    destruct (H (VStr "k") (Memorija.mkRawEntry 0 JNaN (VStr "v")) eq_refl)
      as [_ Hdue].
    specialize (Hdue 0 (Memorija.mkTimer (VStr "k") 0 42)).
    discriminate Hdue. by repeat split.
Qed.

(** C6, amended.  In every state reached by any calls, with any
    arguments, a stored record owns a live timer (filed in the
    [WeakMap], still pending in the host, closing over this record) if
    and only if its deadline is set, every pending timer is owned by a
    stored record, and every operation ([set], [delete], [clear], the
    setters, time passing, a timer firing) leads to a state where this
    holds again.  When all the TTLs passed so far were [null] or finite
    numbers within the host's range (a delay of at most 2147483647 ms,
    and a deadline computed on safe integers), that timer is moreover
    due at the record's deadline, and every further call within that
    range keeps it so. *)
Theorem record_owns_timer_iff_deadline_set (s : Memorija.state) :
  (reachable_any s ->
   timer_iff_deadline s
   ∧ (∀ h t, Memorija.pending s !! h = Some t ->
        ∃ r, Memorija.getRawEntry (Memorija.cb_key t) s = Some r
             ∧ live_timer s (Memorija.cb_key t) r h t)
   ∧ (∀ e, timer_iff_deadline (Memorija.exec e s)))
  ∧ (reachable_in_range s ->
     deadline_iff_live_timer s
     ∧ (∀ e, Memorija.well_typed e -> within_timer_range e s ->
          deadline_iff_live_timer (Memorija.exec e s))).
Proof.
  split.
  - intros Hreach. pose proof (reachable_any_owner_inv s Hreach) as Hinv.
    split; [by apply owner_inv_timer_iff_deadline|]. split.
    + intros h t Hp.
      destruct (own_pending s Hinv _ _ Hp) as (r & Hr & Href & Hh).
      exists r. by repeat split.
    + intros e. by apply owner_inv_timer_iff_deadline, owner_inv_exec.
  - intros Hreach.
    split.
    + by apply timer_inv_deadline_iff, reachable_timer_inv,
        reachable_in_range_reachable.
    + intros e Hwt Hrange.
      apply timer_inv_deadline_iff, reachable_timer_inv,
        reachable_in_range_reachable.
      by apply in_range_step.
Qed.

Lemma record_owns_timer_iff_deadline_set_witness :
  let s := Memorija.set (VStr "x") (VStr "v1") (JNum 100)
             (Memorija.constructor 0) in
  reachable_in_range s ∧ deadline_iff_live_timer s.
Proof.
  assert (Hs : reachable_in_range
                 (Memorija.set (VStr "x") (VStr "v1") (JNum 100)
                    (Memorija.constructor 0))).
  { apply (in_range_step
             (Memorija.ESet (VStr "x") (VStr "v1") (JNum 100))
             (Memorija.constructor 0) (in_range_new 0)).
    - discriminate.
    - vm_compute. repeat split; discriminate. }
  split; [exact Hs|].
  exact (proj1 (proj2 (record_owns_timer_iff_deadline_set _) Hs)).
Defined.

(** ** Firing *)

Lemma fire_clock h s : Memorija.clock (Memorija.fire h s) = Memorija.clock s.
Proof.
  unfold Memorija.fire. destruct (Memorija.pending s !! h); [|done].
  by case_bool_decide.
Qed.

(** Firing either does nothing or removes the key of a due timer. *)
Lemma fire_cases h s :
  timer_inv s ->
  Memorija.fire h s = s
  ∨ ∃ t r, Memorija.pending s !! h = Some t
           ∧ (Memorija.fire_at t ≤ Memorija.clock s)%Z
           ∧ Memorija.getRawEntry (Memorija.cb_key t) s = Some r
           ∧ Memorija.ref r = Memorija.cb_entry t
           ∧ Memorija.slot0 r = JNum (Memorija.fire_at t)
           ∧ Memorija.fire h s = (Memorija.delete (Memorija.cb_key t) s).2.
Proof.
  intros Hinv.
  destruct (Memorija.pending s !! h) as [t|] eqn:Hp.
  - destruct (decide (Memorija.fire_at t ≤ Memorija.clock s)%Z) as [Hdue|Hnot].
    + right. destruct (inv_pending s Hinv _ _ Hp) as (r & Hr & Href & _ & Hs0).
      exists t, r. repeat split; try done. by apply fire_as_delete.
    + left. apply fire_idle. intros t' Ht'. assert (t' = t) by congruence.
      subst. lia.
  - left. apply fire_idle. intros t' Ht'. congruence.
Qed.

Lemma getRawEntry_delete_ne k k' s :
  k ≠ k' ->
  Memorija.getRawEntry k' (Memorija.delete k s).2 = Memorija.getRawEntry k' s.
Proof.
  intros. unfold Memorija.getRawEntry. rewrite delete_map.
  by apply jsmap_get_delete_ne.
Qed.

(** C2.  In every reachable state, a pending timer closes over the
    record that is stored under its key at that moment.  Hence a firing
    that removes [k] is the firing of the timer installed for the record
    then stored under [k]; a handle that is not that timer leaves the
    record of [k] in place; and the handle of a record that has been
    replaced by [set] or removed by [delete] is no longer pending, so
    that its firing does nothing. *)
Theorem timer_removes_only_its_own_record (s : Memorija.state) (h : nat) :
  Memorija.reachable s ->
  (∀ t, Memorija.pending s !! h = Some t ->
     ∃ r, Memorija.getRawEntry (Memorija.cb_key t) s = Some r
          ∧ Memorija.ref r = Memorija.cb_entry t)
  ∧ (∀ k, Memorija.has k s = true ->
       Memorija.has k (Memorija.fire h s) = false ->
       ∃ t r, Memorija.pending s !! h = Some t
              ∧ Memorija.cb_key t = k
              ∧ Memorija.getRawEntry k s = Some r
              ∧ Memorija.ref r = Memorija.cb_entry t)
  ∧ (∀ k r, Memorija.getRawEntry k s = Some r ->
       (∀ t, Memorija.pending s !! h = Some t ->
          ¬ (Memorija.cb_key t = k ∧ Memorija.cb_entry t = Memorija.ref r)) ->
       Memorija.getRawEntry k (Memorija.fire h s) = Some r)
  ∧ (∀ k r v ttl, Memorija.getRawEntry k s = Some r ->
       Memorija.timers s !! Memorija.ref r = Some h ->
       Memorija.fire h (Memorija.set k v ttl s) = Memorija.set k v ttl s
       ∧ Memorija.fire h (Memorija.delete k s).2 = (Memorija.delete k s).2).
Proof.
  intros Hreach. pose proof (reachable_timer_inv s Hreach) as Hinv.
  split; [|split; [|split]].
  - intros t Hp.
    destruct (inv_pending s Hinv _ _ Hp) as (r & Hr & Href & _).
    by exists r.
  - intros k Hin Hout.
    destruct (fire_cases h s Hinv) as [Hid|(t & r & Hp & Hdue & Hr & Href & _ & Hf)].
    { rewrite Hid in Hout. congruence. }
    exists t, r.
    destruct (decide (Memorija.cb_key t = k)) as [<-|Hne]; [done|].
    apply has_getRawEntry in Hin.
    rewrite Hf in Hout.
    rewrite <- (getRawEntry_delete_ne _ _ s Hne) in Hin.
    apply has_getRawEntry in Hin. congruence.
  - intros k r Hr Hnot.
    destruct (fire_cases h s Hinv) as [Hid|(t & r' & Hp & Hdue & Hr' & Href & _ & Hf)].
    { by rewrite Hid. }
    destruct (decide (Memorija.cb_key t = k)) as [Hk|Hne].
    + destruct (Hnot t Hp). split; [done|]. rewrite Hk in Hr'. congruence.
    + rewrite Hf. by rewrite getRawEntry_delete_ne.
  - intros k r v ttl Hr Hh.
    assert (Hgone : pending_after_cancel k s !! h = None).
    { unfold pending_after_cancel. rewrite Hr, Hh. apply lookup_delete_eq. }
    destruct (timers_fresh s _ _ Hinv Hh) as [_ Hlt].
    split; apply fire_idle; intros t Hp; exfalso.
    + destruct (decide (ttl = JUndefined)) as [->|Httl].
      * destruct (set_timers_without_ttl k v s) as (_ & Hpd & _).
        rewrite Hpd in Hp. congruence.
      * destruct (set_timers_with_ttl k v ttl s Httl) as (_ & Hpd & _).
        rewrite Hpd, lookup_insert_ne in Hp; [congruence | lia].
    + destruct (delete_timers k s) as (_ & Hpd & _).
      rewrite Hpd in Hp. congruence.
Qed.

Lemma timer_removes_only_its_own_record_witness :
  let s := Memorija.set (VStr "x") (VStr "v1") (JNum 100)
             (Memorija.constructor 0) in
  Memorija.reachable s
  ∧ ∀ t, Memorija.pending s !! 0 = Some t ->
      ∃ r, Memorija.getRawEntry (Memorija.cb_key t) s = Some r
           ∧ Memorija.ref r = Memorija.cb_entry t.
Proof.
  assert (Hs : Memorija.reachable
                 (Memorija.set (VStr "x") (VStr "v1") (JNum 100)
                    (Memorija.constructor 0))).
  { apply (Memorija.reachable_step
             (Memorija.ESet (VStr "x") (VStr "v1") (JNum 100))
             (Memorija.constructor 0) (Memorija.reachable_new 0)).
    discriminate. }
  split; [exact Hs|].
  exact (proj1 (timer_removes_only_its_own_record _ 0 Hs)).
Defined.

(** ** Survival of a record while only the scheduler runs *)

Lemma scheduler_event_well_typed e :
  Memorija.scheduler_event e -> Memorija.well_typed e.
Proof. by destruct e. Qed.

Lemma run_clock_mono tr s :
  Forall Memorija.scheduler_event tr ->
  (Memorija.clock s ≤ Memorija.clock (Memorija.run tr s))%Z.
Proof.
  intros Htr. revert s. induction Htr as [|e tr He _ IH]; intros s; simpl.
  - lia.
  - etrans; [|apply IH].
    destruct e; simpl in *; try done.
    + lia.
    + rewrite fire_clock. lia.
Qed.

(** A stored record outlives every run of the scheduler that ends
    before its deadline; a record without deadline outlives every run
    of the scheduler. *)
Lemma record_survives_scheduler tr s k r :
  timer_inv s ->
  Forall Memorija.scheduler_event tr ->
  Memorija.getRawEntry k s = Some r ->
  (∀ d, Memorija.slot0 r = JNum d ->
        (Memorija.clock (Memorija.run tr s) < d)%Z) ->
  Memorija.getRawEntry k (Memorija.run tr s) = Some r.
Proof.
  intros Hinv Htr. revert s Hinv.
  induction Htr as [|e tr He Htr IH]; intros s Hinv Hr Hbound; simpl; [done|].
  simpl in Hbound.
  pose proof (run_clock_mono tr (Memorija.exec e s) Htr) as Hmono.
  apply IH; [|clear IH|done].
  - by apply timer_inv_exec; [apply scheduler_event_well_typed|].
  - destruct e; simpl in *; try done.
    destruct (fire_cases h s Hinv)
      as [Hid|(t & r' & Hp & Hdue & Hr' & Href & Hs0 & Hf)].
    { by rewrite Hid. }
    destruct (decide (Memorija.cb_key t = k)) as [Hk|Hne].
    + exfalso. rewrite Hk in Hr'. assert (r' = r) by congruence. subst r'.
      specialize (Hbound _ Hs0). rewrite fire_clock in Hmono. lia.
    + rewrite Hf. by rewrite getRawEntry_delete_ne.
Qed.

(** C3.  Setting [k] again cancels the expiration scheduled before:
    after [set(k, v, t1)] followed at once by [set(k, v', t2)] (the
    claim's [t1 = 50], [t2 = 5000]), whatever the scheduler does, [k] is
    present with value [v'] as long as the clock reads less than the
    instant of the calls plus [t2]; and after [delete(k)] followed by
    [set(k, v)] without TTL, [k] is present with value [v] after every
    run of the scheduler. *)
Theorem reset_cancels_previous_expiration
    (s : Memorija.state) (k v v' : jsval) (t1 t2 : Z)
    (tr : list Memorija.event) :
  Memorija.reachable s ->
  Forall Memorija.scheduler_event tr ->
  (let s2 := Memorija.set k v' (JNum t2) (Memorija.set k v (JNum t1) s) in
   (Memorija.clock (Memorija.run tr s2) < Memorija.clock s + t2)%Z ->
   Memorija.has k (Memorija.run tr s2) = true
   ∧ Memorija.get k (Memorija.run tr s2) = v')
  ∧ (let s2 := Memorija.set k v JUndefined (Memorija.delete k s).2 in
     Memorija.has k (Memorija.run tr s2) = true
     ∧ Memorija.get k (Memorija.run tr s2) = v).
Proof.
  intros Hreach Htr. pose proof (reachable_timer_inv s Hreach) as Hinv.
  split.
  - intros s2 Hclock.
    assert (Hinv2 : timer_inv s2).
    { unfold s2. by do 2 (apply timer_inv_set; [done|]). }
    assert (Hr : Memorija.getRawEntry k s2
                 = Some (Memorija.mkRawEntry
                           (S (Memorija.next_ref s))
                           (JNum (Memorija.clock s + t2)) v')).
    { unfold s2. rewrite getRawEntry_set_eq, set_clock.
      destruct (set_timers_with_ttl k v (JNum t1) s) as (_ & _ & -> & _);
        done. }
    assert (Hlive : Memorija.getRawEntry k (Memorija.run tr s2)
                    = Some (Memorija.mkRawEntry
                              (S (Memorija.next_ref s))
                              (JNum (Memorija.clock s + t2)) v')).
    { apply record_survives_scheduler; try done.
      simpl. intros d [= <-]. done. }
    split; [apply has_getRawEntry; by rewrite Hlive|].
    unfold Memorija.get. by rewrite Hlive.
  - intros s2.
    assert (Hinv2 : timer_inv s2).
    { unfold s2. apply timer_inv_set; [done|]. by apply timer_inv_delete. }
    assert (Hr : Memorija.getRawEntry k s2
                 = Some (Memorija.mkRawEntry
                           (Memorija.next_ref (Memorija.delete k s).2)
                           JUndefined v)).
    { unfold s2. by rewrite getRawEntry_set_eq. }
    assert (Hlive : Memorija.getRawEntry k (Memorija.run tr s2)
                    = Some (Memorija.mkRawEntry
                              (Memorija.next_ref (Memorija.delete k s).2)
                              JUndefined v)).
    { apply record_survives_scheduler; try done. }
    split; [apply has_getRawEntry; by rewrite Hlive|].
    unfold Memorija.get. by rewrite Hlive.
Qed.

Lemma reset_cancels_previous_expiration_witness :
  let k := VStr "k" in
  let s2 := Memorija.set k (VStr "w") (JNum 5000)
              (Memorija.set k (VStr "v") (JNum 50)
                 (Memorija.constructor 0)) in
  let tr := [Memorija.ETick 50; Memorija.EFire 0; Memorija.ETick 4000;
             Memorija.EFire 0; Memorija.EFire 1] in
  Memorija.has k (Memorija.run tr s2) = true
  ∧ Memorija.get k (Memorija.run tr s2) = VStr "w".
Proof.
  refine (proj1 (reset_cancels_previous_expiration
                   (Memorija.constructor 0) (VStr "k") (VStr "v") (VStr "w")
                   50 5000
                   [Memorija.ETick 50; Memorija.EFire 0; Memorija.ETick 4000;
                    Memorija.EFire 0; Memorija.EFire 1]
                   (Memorija.reachable_new 0) _) _).
  - repeat constructor; simpl; lia.
  - vm_compute. reflexivity.
Defined.

(** ** Keys past their deadline *)

Lemma jsmap_delete_absent {A : Type} (k : jsval) (m : list (jsval * A)) :
  jsmap_has k m = false -> jsmap_delete k m = m.
Proof.
  unfold jsmap_has. induction m as [|[k' a'] m IH]; simpl; [done|].
  destruct (decide (k' = k)) as [->|Hne]; [done|].
  intros H. f_equal. by apply IH.
Qed.

Lemma jsmap_length_delete_present {A : Type} (k : jsval)
    (m : list (jsval * A)) :
  NoDup (jsmap_keys m) -> jsmap_has k m = true ->
  S (length (jsmap_delete k m)) = length m.
Proof.
  unfold jsmap_has, jsmap_keys.
  induction m as [|[k' a'] m IH]; simpl; [done|].
  intros [Hnotin Hnd]%NoDup_cons.
  destruct (decide (k' = k)) as [->|Hne]; simpl.
  - intros _. f_equal. rewrite jsmap_delete_absent; [done|].
    unfold jsmap_has. apply jsmap_get_None_keys in Hnotin. by rewrite Hnotin.
  - intros H. f_equal. by apply IH.
Qed.

Lemma forEach_collect s acc :
  Memorija.forEach (fun v k a => a ++ [(k, v)]) s acc
  = acc ++ Memorija.entries s.
Proof.
  unfold Memorija.forEach, Memorija.entries.
  revert acc. induction (Memorija.map s) as [|[k r] m IH]; intros acc; simpl.
  - by rewrite app_nil_r.
  - rewrite IH. by rewrite <- app_assoc.
Qed.

(** C5.  In every reachable state, whatever the calls that led to it
    and their arguments, take a key whose record carries a deadline that
    the clock has passed.  Its timer is still pending (it
    has not fired), and the key is visible to every read: [has] is true,
    [get] returns the stored value, [getEntry] returns its entry, which
    reports itself expired; the key is met by every form of iteration
    ([keys], [values], [entries], the iterator, [fullEntries],
    [fullValues] and the callback of [forEach]); and it is counted by
    [size], which is the number of distinct keys and would be one less
    without it.  No read checks expiry: every read answers the same
    however far the clock advances without a timer firing.  No read
    removes the key: the getter modes of [ttl] and [expireAt] hand back
    the state they were given. *)
Theorem past_deadline_key_still_visible
    (s : Memorija.state) (k : jsval) (r : Memorija.RawEntry) (d : Z) :
  reachable_any s ->
  Memorija.getRawEntry k s = Some r ->
  Memorija.slot0 r = JNum d ->
  (d < Memorija.clock s)%Z ->
  let v := Memorija.slot1 r in
  let e := MemorijaEntry.constructor v (JNum d) in
  (∃ h t, live_timer s k r h t)
  ∧ (Memorija.has k s = true
     ∧ Memorija.get k s = v
     ∧ Memorija.getEntry k s = Some e
     ∧ MemorijaEntry.isExpired (Memorija.clock s) e = true)
  ∧ (k ∈ Memorija.keys s
     ∧ v ∈ Memorija.values s
     ∧ (k, v) ∈ Memorija.entries s
     ∧ (k, v) ∈ Memorija.iterator s
     ∧ (k, e) ∈ Memorija.fullEntries s
     ∧ e ∈ Memorija.fullValues s
     ∧ (k, v) ∈ Memorija.forEach (fun v0 k0 a => a ++ [(k0, v0)]) s [])
  ∧ (Memorija.size s = length (Memorija.keys s)
     ∧ NoDup (Memorija.keys s)
     ∧ Memorija.size s = S (Memorija.size (Memorija.delete k s).2))
  ∧ (∀ δ,
       let s' := Memorija.tick δ s in
       Memorija.has k s' = true
       ∧ Memorija.get k s' = v
       ∧ Memorija.getEntry k s' = Some e
       ∧ (Memorija.expireAt k JUndefined s').1 = JNum d
       ∧ Memorija.keys s' = Memorija.keys s
       ∧ Memorija.values s' = Memorija.values s
       ∧ Memorija.entries s' = Memorija.entries s
       ∧ Memorija.iterator s' = Memorija.iterator s
       ∧ Memorija.fullEntries s' = Memorija.fullEntries s
       ∧ Memorija.fullValues s' = Memorija.fullValues s
       ∧ Memorija.size s' = Memorija.size s
       ∧ ∀ (f : jsval -> jsval -> list (jsval * jsval)
                  -> list (jsval * jsval)) acc,
           Memorija.forEach f s' acc = Memorija.forEach f s acc)
  ∧ ((Memorija.ttl k JUndefined s).2 = s
     ∧ (Memorija.expireAt k JUndefined s).2 = s).
Proof.
  intros Hreach Hr Hd Hpast v e.
  pose proof (reachable_any_owner_inv s Hreach) as Hinv.
  assert (Hhas : Memorija.has k s = true).
  { apply has_getRawEntry. by rewrite Hr. }
  assert (Hget : Memorija.get k s = v).
  { unfold Memorija.get. by rewrite Hr. }
  assert (Hentry : Memorija.getEntry k s = Some e).
  { unfold Memorija.getEntry. rewrite Hr. unfold e, v. by rewrite Hd. }
  assert (Hin : (k, r) ∈ Memorija.map s) by by apply jsmap_get_Some_elem.
  assert (Hentries : (k, v) ∈ Memorija.entries s).
  { unfold Memorija.entries.
    apply (list_elem_of_fmap_2 (fun kv => (kv.1, Memorija.slot1 kv.2)) _ _ Hin). }
  split; [|split; [|split; [|split; [|split]]]].
  - apply (proj1 (owner_inv_timer_iff_deadline s Hinv k r Hr)). by rewrite Hd.
  - repeat split; try done.
    unfold e, MemorijaEntry.isExpired, js_lt; simpl.
    by apply bool_decide_eq_true_2.
  - repeat split; try done.
    + by apply jsmap_has_keys.
    + unfold Memorija.values.
      apply (list_elem_of_fmap_2 (fun kv => Memorija.slot1 kv.2) _ _ Hin).
    + unfold Memorija.fullEntries, e, v. rewrite <- Hd.
      apply (list_elem_of_fmap_2
               (fun kv => (kv.1, MemorijaEntry.constructor
                                   (Memorija.slot1 kv.2) (Memorija.slot0 kv.2)))
               _ _ Hin).
    + unfold Memorija.fullValues, e, v. rewrite <- Hd.
      apply (list_elem_of_fmap_2
               (fun kv => MemorijaEntry.constructor
                            (Memorija.slot1 kv.2) (Memorija.slot0 kv.2))
               _ _ Hin).
    + by rewrite forEach_collect.
  - split; [apply size_keys|]. split; [apply (own_keys s Hinv)|].
    unfold Memorija.size. rewrite delete_map. symmetry.
    by apply jsmap_length_delete_present; [apply (own_keys s Hinv)|].
  - intros δ s'.
    assert (Hmap : Memorija.map s' = Memorija.map s) by done.
    assert (Hr' : Memorija.getRawEntry k s' = Some r) by done.
    split; [apply has_getRawEntry; by rewrite Hr'|].
    split; [unfold Memorija.get; by rewrite Hr'|].
    split; [unfold Memorija.getEntry; rewrite Hr'; unfold e, v; by rewrite Hd|].
    split; [unfold Memorija.expireAt; by rewrite Hr'|].
    repeat split.
  - unfold Memorija.ttl, Memorija.expireAt. by rewrite Hentry, Hr.
Qed.

Lemma past_deadline_key_still_visible_witness :
  let s := Memorija.tick 150
             (Memorija.set (VStr "x") (VStr "v1") (JNum 100)
                (Memorija.constructor 0)) in
  (Memorija.has (VStr "x") s = true
   ∧ Memorija.get (VStr "x") s = VStr "v1"
   ∧ Memorija.getEntry (VStr "x") s
     = Some (MemorijaEntry.constructor (VStr "v1") (JNum 100))
   ∧ MemorijaEntry.isExpired (Memorija.clock s)
       (MemorijaEntry.constructor (VStr "v1") (JNum 100)) = true)
  ∧ (VStr "x", VStr "v1")
    ∈ Memorija.forEach (fun v0 k0 a => a ++ [(k0, v0)]) s [].
Proof.
  assert (Hs : reachable_any
                 (Memorija.tick 150
                    (Memorija.set (VStr "x") (VStr "v1") (JNum 100)
                       (Memorija.constructor 0)))).
  { apply (any_step (Memorija.ETick 150)).
    apply (any_step (Memorija.ESet (VStr "x") (VStr "v1") (JNum 100))
             (Memorija.constructor 0) (any_new 0)). }
  pose proof (past_deadline_key_still_visible _ (VStr "x")
                (Memorija.mkRawEntry 0 (JNum 100) (VStr "v1")) 100
                Hs eq_refl eq_refl) as H.
  destruct H as (_ & Hread & Hiter & _); [simpl; lia|].
  split; [exact Hread|].
  exact (proj2 (proj2 (proj2 (proj2 (proj2 (proj2 Hiter)))))).
Defined.

(** * Further properties of the operations *)

(** ** More laws of the built-in [Map] *)

Lemma jsmap_elem_get {A : Type} (k : jsval) (a : A) (m : list (jsval * A)) :
  NoDup (jsmap_keys m) -> (k, a) ∈ m -> jsmap_get k m = Some a.
Proof.
  unfold jsmap_keys. induction m as [|[k' a'] m IH]; simpl.
  - intros _ Hin. by apply elem_of_nil in Hin.
  - intros [Hnotin Hnd]%NoDup_cons [Heq|Hin]%elem_of_cons.
    + injection Heq as -> ->. by rewrite decide_True.
    + destruct (decide (k' = k)) as [->|Hne]; [|by apply IH].
      destruct Hnotin. apply (list_elem_of_fmap_2 fst _ _ Hin).
Qed.

Lemma jsmap_set_set {A : Type} (k : jsval) (a b : A) (m : list (jsval * A)) :
  jsmap_set k a (jsmap_set k b m) = jsmap_set k a m.
Proof.
  induction m as [|[k' a'] m IH]; simpl.
  - by rewrite decide_True.
  - destruct (decide (k' = k)) as [->|Hne]; simpl.
    + by rewrite decide_True.
    + rewrite decide_False; [|done]. by rewrite IH.
Qed.

(** Mapping a function over the map after a [set] only sees the new
    record through that function. *)
Lemma jsmap_fmap_set {A B : Type} (g : jsval * A -> B) (k : jsval) (a a' : A)
    (m : list (jsval * A)) :
  (∀ k0, g (k0, a) = g (k0, a')) ->
  g <$> jsmap_set k a m = g <$> jsmap_set k a' m.
Proof.
  intros Hg. induction m as [|[k0 a0] m IH]; simpl.
  - by rewrite Hg.
  - destruct (decide (k0 = k)); simpl; [by rewrite Hg|]. f_equal. apply IH.
Qed.

Lemma jsmap_fmap_set_same {A B : Type} (g : jsval * A -> B) (k : jsval)
    (a a' : A) (m : list (jsval * A)) :
  jsmap_get k m = Some a ->
  (∀ k0, g (k0, a') = g (k0, a)) ->
  g <$> jsmap_set k a' m = g <$> m.
Proof.
  intros Hget Hg. induction m as [|[k0 a0] m IH]; simpl in *; [done|].
  destruct (decide (k0 = k)); simpl.
  - injection Hget as ->. by rewrite Hg.
  - f_equal. by apply IH.
Qed.

(** Two states every witness below starts from. *)
Lemma reachable_after_set :
  Memorija.reachable
    (Memorija.set (VStr "x") (VStr "v1") (JNum 100) (Memorija.constructor 0)).
Proof.
  apply (Memorija.reachable_step
           (Memorija.ESet (VStr "x") (VStr "v1") (JNum 100))
           (Memorija.constructor 0) (Memorija.reachable_new 0)).
  discriminate.
Qed.

Lemma reachable_after_set_and_wait :
  Memorija.reachable
    (Memorija.tick 150
       (Memorija.set (VStr "x") (VStr "v1") (JNum 100)
          (Memorija.constructor 0))).
Proof.
  apply (Memorija.reachable_step (Memorija.ETick 150) _ reachable_after_set).
  simpl. lia.
Qed.

(** ** [clear] *)

(** X1.  In a reachable state [clear] empties the map, cancels every
    pending timer of the host and empties the [WeakMap] of handles, so
    that afterwards no handle whatsoever does anything when fired. *)
Theorem clear_cancels_every_timer (s : Memorija.state) :
  Memorija.reachable s ->
  Memorija.size (Memorija.clear s) = 0
  ∧ Memorija.keys (Memorija.clear s) = []
  ∧ Memorija.pending (Memorija.clear s) = ∅
  ∧ Memorija.timers (Memorija.clear s) = ∅
  ∧ (∀ k, Memorija.has k (Memorija.clear s) = false
          ∧ Memorija.get k (Memorija.clear s) = VUndefined)
  ∧ (∀ h, Memorija.fire h (Memorija.clear s) = Memorija.clear s).
Proof.
  intros Hreach.
  pose proof (timer_inv_clear s (reachable_timer_inv s Hreach)) as Hinv.
  assert (Hp : Memorija.pending (Memorija.clear s) = ∅).
  { apply map_empty. intros h.
    destruct (Memorija.pending (Memorija.clear s) !! h) as [t|] eqn:E; [|done].
    by destruct (inv_pending _ Hinv _ _ E) as (r & Hr & _). }
  repeat split; try done.
  - apply map_empty. intros x.
    destruct (Memorija.timers (Memorija.clear s) !! x) as [h|] eqn:E; [|done].
    destruct (inv_timers _ Hinv _ _ E) as (t & Ht & _).
    rewrite Hp, lookup_empty in Ht. done.
  - intros h. apply fire_idle. intros t. rewrite Hp, lookup_empty. done.
Qed.

Lemma clear_cancels_every_timer_witness :
  Memorija.pending
    (Memorija.clear
       (Memorija.set (VStr "x") (VStr "v1") (JNum 100)
          (Memorija.constructor 0))) = ∅.
Proof.
  exact (proj1 (proj2 (proj2
           (clear_cancels_every_timer _ reachable_after_set)))).
Defined.

(** ** [delete] *)

(** X2.  [delete(k)] returns whether [k] was present.  Afterwards [k]
    is absent and reads as [undefined], every other key keeps its
    record, and the clock is not touched; deleting a key that is not
    there changes nothing at all, so a second [delete(k)] returns
    [false]. *)
Theorem delete_reports_and_removes (s : Memorija.state) (k : jsval) :
  (Memorija.delete k s).1 = Memorija.has k s
  ∧ Memorija.has k (Memorija.delete k s).2 = false
  ∧ Memorija.get k (Memorija.delete k s).2 = VUndefined
  ∧ (∀ k', k' ≠ k ->
       Memorija.getRawEntry k' (Memorija.delete k s).2
       = Memorija.getRawEntry k' s)
  ∧ (Memorija.has k s = false -> (Memorija.delete k s).2 = s)
  ∧ (Memorija.delete k (Memorija.delete k s).2).1 = false.
Proof.
  destruct (cancelTimerForKey_frame k s) as (Hm & _).
  assert (Hgone : Memorija.getRawEntry k (Memorija.delete k s).2 = None).
  { unfold Memorija.getRawEntry. rewrite delete_map.
    apply jsmap_get_delete_eq. }
  assert (Hfst : ∀ s0, (Memorija.delete k s0).1 = Memorija.has k s0).
  { intros s0. destruct (cancelTimerForKey_frame k s0) as (Hm0 & _).
    unfold Memorija.delete, Memorija.has; simpl. by rewrite Hm0. }
  assert (Hhas : Memorija.has k (Memorija.delete k s).2 = false).
  { unfold Memorija.has, jsmap_has.
    unfold Memorija.getRawEntry in Hgone. by rewrite Hgone. }
  split; [apply Hfst|]. split; [done|]. split.
  { unfold Memorija.get. by rewrite Hgone. }
  split.
  { intros k' Hne. by apply getRawEntry_delete_ne. }
  split; [|by rewrite Hfst].
  intros Habs.
  assert (Hnone : Memorija.getRawEntry k s = None).
  { unfold Memorija.has, jsmap_has in Habs. unfold Memorija.getRawEntry.
    by destruct (jsmap_get k (Memorija.map s)). }
  destruct (delete_timers k s) as (Ht & Hp & Hr & Hh & Hc).
  apply state_eq; try done.
  - rewrite delete_map. by apply jsmap_delete_absent.
  - rewrite Ht. unfold timers_after_cancel. by rewrite Hnone.
  - rewrite Hp. unfold pending_after_cancel. by rewrite Hnone.
Qed.

(** ** [set] followed by a read *)

(** X3.  What [set(k, v, ttl)] stored is what the reads return: [k] is
    present, [get(k)] is [v], and the record of every other key is
    untouched.  Without TTL, [getEntry(k)] is the entry of [v] that never
    expires and the getter of [ttl] answers [null].  With an integer TTL
    [t] such that [now], [t] and [now + t] are safe integers,
    [getEntry(k)] is the entry of [v] with deadline [now + t], the
    getter of [expireAt] returns [now + t] and the getter of [ttl], read
    at the same instant, gives back [t]. *)
Theorem set_then_read (s : Memorija.state) (k v : jsval) (ttl : jsnum) :
  let s' := Memorija.set k v ttl s in
  Memorija.has k s' = true
  ∧ Memorija.get k s' = v
  ∧ (∀ k', k' ≠ k ->
       Memorija.getRawEntry k' s' = Memorija.getRawEntry k' s)
  ∧ (ttl = JUndefined ->
     Memorija.getEntry k s' = Some (MemorijaEntry.constructor v JNull)
     ∧ (Memorija.ttl k JUndefined s').1 = JNull)
  ∧ (∀ t, ttl = JNum t ->
       safe_integer (Memorija.clock s) -> safe_integer t ->
       safe_integer (Memorija.clock s + t) ->
       Memorija.getEntry k s'
       = Some (MemorijaEntry.constructor v (JNum (Memorija.clock s + t)))
       ∧ (Memorija.ttl k JUndefined s').1 = JNum t
       ∧ (Memorija.expireAt k JUndefined s').1 = JNum (Memorija.clock s + t)).
Proof.
  intros s'.
  pose proof (getRawEntry_set_eq k v ttl s) as Hr. fold s' in Hr.
  pose proof (set_clock k v ttl s) as Hc. fold s' in Hc.
  split; [apply has_getRawEntry; by rewrite Hr|].
  split; [unfold Memorija.get; by rewrite Hr|].
  split; [intros k' Hne; by apply getRawEntry_set_ne|].
  split.
  - intros ->. unfold Memorija.ttl, Memorija.getEntry. by rewrite Hr.
  - intros t -> _ _ _. split; [|split].
    + unfold Memorija.getEntry. by rewrite Hr.
    + unfold Memorija.ttl, Memorija.getEntry. rewrite Hr, Hc.
      unfold MemorijaEntry.ttl, js_sub; simpl. f_equal. lia.
    + unfold Memorija.expireAt. by rewrite Hr.
Qed.

Lemma set_then_read_witness :
  let s' := Memorija.set (VStr "x") (VStr "v1") (JNum 100)
              (Memorija.constructor 7) in
  Memorija.getEntry (VStr "x") s'
  = Some (MemorijaEntry.constructor (VStr "v1") (JNum (7 + 100)))
  ∧ (Memorija.ttl (VStr "x") JUndefined s').1 = JNum 100
  ∧ (Memorija.expireAt (VStr "x") JUndefined s').1 = JNum (7 + 100).
Proof.
  pose proof (set_then_read (Memorija.constructor 7) (VStr "x") (VStr "v1")
                (JNum 100)) as H.
  destruct H as (_ & _ & _ & _ & H).
  apply (H 100%Z eq_refl); unfold safe_integer; simpl; lia.
Defined.

(** ** The setters of [ttl] and [expireAt] *)

(** X4.  On a key that is not in the map both setters return
    [undefined] and leave the state as it was: they never create a
    key, whatever the argument. *)
Theorem setters_ignore_missing_key
    (s : Memorija.state) (k : jsval) (x : jsnum) :
  Memorija.has k s = false ->
  Memorija.ttl k x s = (JUndefined, s)
  ∧ Memorija.expireAt k x s = (JUndefined, s).
Proof.
  intros Habs.
  assert (Hnone : Memorija.getRawEntry k s = None).
  { unfold Memorija.has, jsmap_has in Habs. unfold Memorija.getRawEntry.
    by destruct (jsmap_get k (Memorija.map s)). }
  unfold Memorija.ttl, Memorija.expireAt, Memorija.getEntry.
  by rewrite Hnone.
Qed.

Lemma setters_ignore_missing_key_witness :
  Memorija.ttl (VStr "k") (JNum 5) (Memorija.constructor 0)
  = (JUndefined, Memorija.constructor 0)
  ∧ Memorija.expireAt (VStr "k") (JNum 5) (Memorija.constructor 0)
    = (JUndefined, Memorija.constructor 0).
Proof.
  apply (setters_ignore_missing_key (Memorija.constructor 0) (VStr "k")
           (JNum 5)).
  reflexivity.
Defined.

(** X5.  On a present key, the setters return their argument, keep the
    stored value and the key's position, and leave every other key's
    record alone: the sequence of [entries] is the same before and
    after. *)
Theorem setters_keep_value_and_position
    (s : Memorija.state) (k : jsval) (x : jsnum) (r : Memorija.RawEntry) :
  Memorija.getRawEntry k s = Some r ->
  x ≠ JUndefined ->
  ((Memorija.ttl k x s).1 = x
   ∧ Memorija.get k (Memorija.ttl k x s).2 = Memorija.slot1 r
   ∧ Memorija.entries (Memorija.ttl k x s).2 = Memorija.entries s
   ∧ ∀ k', k' ≠ k ->
       Memorija.getRawEntry k' (Memorija.ttl k x s).2
       = Memorija.getRawEntry k' s)
  ∧ ((Memorija.expireAt k x s).1 = x
     ∧ Memorija.get k (Memorija.expireAt k x s).2 = Memorija.slot1 r
     ∧ Memorija.entries (Memorija.expireAt k x s).2 = Memorija.entries s
     ∧ ∀ k', k' ≠ k ->
         Memorija.getRawEntry k' (Memorija.expireAt k x s).2
         = Memorija.getRawEntry k' s).
Proof.
  intros Hr Hx.
  assert (Hset : ∀ t,
            Memorija.get k (Memorija.set k (Memorija.slot1 r) t s)
            = Memorija.slot1 r
            ∧ Memorija.entries (Memorija.set k (Memorija.slot1 r) t s)
              = Memorija.entries s
            ∧ ∀ k', k' ≠ k ->
                Memorija.getRawEntry k' (Memorija.set k (Memorija.slot1 r) t s)
                = Memorija.getRawEntry k' s).
  { intros t. split; [|split].
    - unfold Memorija.get. by rewrite getRawEntry_set_eq.
    - unfold Memorija.entries. rewrite set_map.
      by apply (jsmap_fmap_set_same _ k r).
    - intros k' Hne. by apply getRawEntry_set_ne. }
  split.
  - unfold Memorija.ttl, Memorija.getEntry. rewrite Hr.
    destruct x; try done; cbn [fst snd]; (split; [done|]); apply Hset.
  - unfold Memorija.expireAt. rewrite Hr.
    destruct x; try done; cbn [fst snd]; (split; [done|]); apply Hset.
Qed.

Lemma setters_keep_value_and_position_witness :
  let s := Memorija.set (VStr "x") (VStr "v1") (JNum 100)
             (Memorija.constructor 0) in
  (Memorija.ttl (VStr "x") (JNum 7) s).1 = JNum 7
  ∧ Memorija.get (VStr "x") (Memorija.ttl (VStr "x") (JNum 7) s).2 = VStr "v1"
  ∧ Memorija.entries (Memorija.ttl (VStr "x") (JNum 7) s).2
    = Memorija.entries s
  ∧ ∀ k', k' ≠ VStr "x" ->
      Memorija.getRawEntry k' (Memorija.ttl (VStr "x") (JNum 7) s).2
      = Memorija.getRawEntry k' s.
Proof.
  refine (proj1 (setters_keep_value_and_position
                   (Memorija.set (VStr "x") (VStr "v1") (JNum 100)
                      (Memorija.constructor 0))
                   (VStr "x") (JNum 7)
                   (Memorija.mkRawEntry 0 (JNum 100) (VStr "v1")) _ _)).
  - reflexivity.
  - discriminate.
Defined.

(** ** The life of a key *)

(** X6.  After [set(k, v, ttl)] in a reachable state, with a TTL
    that is [undefined], [null] or a finite number within the host's
    timer range (at most 2147483647 ms), and whatever the scheduler then
    does, as long as less than the TTL has elapsed the key is present
    with value [v]; a key set without TTL stays for ever and its [ttl]
    reads [null].  When moreover the instants involved are safe
    integers, the getter of [expireAt] returns the deadline [now + ttl]
    and the getter of [ttl] the time that remains. *)
Theorem key_lives_until_deadline
    (s : Memorija.state) (k v : jsval) (ttl : jsnum)
    (tr : list Memorija.event) :
  Memorija.reachable s ->
  timer_range ttl ->
  Forall Memorija.scheduler_event tr ->
  let s2 := Memorija.run tr (Memorija.set k v ttl s) in
  (∀ d, new_deadline (Memorija.clock s) ttl = JNum d ->
        (Memorija.clock s2 < d)%Z) ->
  Memorija.has k s2 = true
  ∧ Memorija.get k s2 = v
  ∧ (ttl = JUndefined -> (Memorija.ttl k JUndefined s2).1 = JNull)
  ∧ (∀ t, ttl = JNum t ->
       safe_integer (Memorija.clock s) -> safe_integer t ->
       safe_integer (Memorija.clock s + t) ->
       safe_integer (Memorija.clock s2) ->
       (Memorija.expireAt k JUndefined s2).1 = JNum (Memorija.clock s + t)
       ∧ (Memorija.ttl k JUndefined s2).1
         = JNum (t - (Memorija.clock s2 - Memorija.clock s))).
Proof.
  intros Hreach Hrange Htr s2 Hbound.
  pose proof (reachable_timer_inv s Hreach) as Hinv.
  assert (Hnan : ttl ≠ JNaN) by (by destruct ttl).
  assert (Hlive : Memorija.getRawEntry k s2
                  = Some (Memorija.mkRawEntry (Memorija.next_ref s)
                            (new_deadline (Memorija.clock s) ttl) v)).
  { apply record_survives_scheduler; try done.
    - by apply timer_inv_set.
    - apply getRawEntry_set_eq. }
  split; [apply has_getRawEntry; by rewrite Hlive|].
  split; [unfold Memorija.get; by rewrite Hlive|].
  split.
  - intros ->. unfold Memorija.ttl, Memorija.getEntry. by rewrite Hlive.
  - intros t -> _ _ _ _. split.
    + unfold Memorija.expireAt. by rewrite Hlive.
    + unfold Memorija.ttl, Memorija.getEntry. rewrite Hlive.
      unfold MemorijaEntry.ttl, js_sub; simpl. f_equal. lia.
Qed.

Lemma key_lives_until_deadline_witness :
  let s2 := Memorija.run [Memorija.ETick 40; Memorija.EFire 0]
              (Memorija.set (VStr "x") (VStr "v1") (JNum 100)
                 (Memorija.constructor 0)) in
  Memorija.has (VStr "x") s2 = true
  ∧ Memorija.get (VStr "x") s2 = VStr "v1"
  ∧ (Memorija.expireAt (VStr "x") JUndefined s2).1 = JNum (0 + 100)
  ∧ (Memorija.ttl (VStr "x") JUndefined s2).1
    = JNum (100 - (Memorija.clock s2 - 0)).
Proof.
  pose proof (key_lives_until_deadline (Memorija.constructor 0)
                (VStr "x") (VStr "v1") (JNum 100)
                [Memorija.ETick 40; Memorija.EFire 0]
                (Memorija.reachable_new 0)) as H.
  destruct H as (H1 & H2 & _ & H4).
  - unfold timer_range, TIMEOUT_MAX. lia.
  - repeat constructor; simpl; lia.
  - intros d [= <-]. vm_compute. reflexivity.
  - destruct (H4 100%Z eq_refl) as [H5 H6];
      [vm_compute; split; discriminate ..|].
    split; [exact H1|]. split; [exact H2|]. split; [exact H5 | exact H6].
Defined.

(** X7.  Once the delay of [set(k, v, t)] has elapsed, the firing of
    the timer that [set] installed removes the key: [k] was still
    present just before, and afterwards [has] is false and [get],
    [getEntry] and the getter of [ttl] all answer [undefined]; the
    handle is spent. *)
Theorem key_expires_when_timer_fires
    (s : Memorija.state) (k v : jsval) (t d : Z) :
  (t ≤ d)%Z ->
  let s1 := Memorija.tick d (Memorija.set k v (JNum t) s) in
  let s2 := Memorija.fire (Memorija.next_handle s) s1 in
  Memorija.has k s1 = true
  ∧ Memorija.has k s2 = false
  ∧ Memorija.get k s2 = VUndefined
  ∧ Memorija.getEntry k s2 = None
  ∧ (Memorija.ttl k JUndefined s2).1 = JUndefined
  ∧ Memorija.pending s2 !! Memorija.next_handle s = None.
Proof.
  intros Htd s1 s2.
  destruct (set_timers_with_ttl k v (JNum t) s) as (_ & Hp & _); [done|].
  assert (Hp1 : Memorija.pending s1 !! Memorija.next_handle s
                = Some (Memorija.mkTimer k (Memorija.next_ref s)
                          (Memorija.clock s + t))).
  { unfold s1. cbn [Memorija.tick Memorija.pending].
    rewrite Hp. apply lookup_insert_eq. }
  assert (Hc1 : Memorija.clock s1 = (Memorija.clock s + d)%Z).
  { unfold s1. cbn [Memorija.tick Memorija.clock]. by rewrite set_clock. }
  assert (Hs2 : Memorija.getRawEntry k s2 = None).
  { unfold s2. rewrite (fire_due _ _ _ Hp1);
      [|rewrite Hc1; cbn [Memorija.fire_at]; lia].
    unfold Memorija.getRawEntry; simpl. apply jsmap_get_delete_eq. }
  split.
  { apply has_getRawEntry. unfold s1, Memorija.getRawEntry.
    cbn [Memorija.tick Memorija.map].
    fold (Memorija.getRawEntry k (Memorija.set k v (JNum t) s)).
    by rewrite getRawEntry_set_eq. }
  split.
  { unfold Memorija.has, jsmap_has. unfold Memorija.getRawEntry in Hs2.
    by rewrite Hs2. }
  split; [unfold Memorija.get; by rewrite Hs2|].
  split; [unfold Memorija.getEntry; by rewrite Hs2|].
  split; [unfold Memorija.ttl, Memorija.getEntry; by rewrite Hs2|].
  unfold s2. rewrite (fire_due _ _ _ Hp1);
    [|rewrite Hc1; cbn [Memorija.fire_at]; lia].
  simpl. apply lookup_delete_eq.
Qed.

Lemma key_expires_when_timer_fires_witness :
  let s1 := Memorija.tick 150
              (Memorija.set (VStr "x") (VStr "v1") (JNum 100)
                 (Memorija.constructor 0)) in
  Memorija.has (VStr "x") s1 = true
  ∧ Memorija.has (VStr "x") (Memorija.fire 0 s1) = false.
Proof.
  pose proof (key_expires_when_timer_fires (Memorija.constructor 0)
                (VStr "x") (VStr "v1") 100 150) as H.
  destruct H as (H1 & H2 & _); [lia|].
  split; [exact H1 | exact H2].
Defined.

(** X8.  [expireAt(k, null)] on a present key of a reachable state
    returns [null] and makes the key permanent: its record has no
    deadline, no pending timer is left for [k], and after every run of
    the scheduler [k] is still present with its value and its [ttl]
    reads [null]. *)
Theorem expireAt_null_makes_key_permanent
    (s : Memorija.state) (k : jsval) (r : Memorija.RawEntry)
    (tr : list Memorija.event) :
  Memorija.reachable s ->
  Memorija.getRawEntry k s = Some r ->
  Forall Memorija.scheduler_event tr ->
  let s1 := (Memorija.expireAt k JNull s).2 in
  (Memorija.expireAt k JNull s).1 = JNull
  ∧ (Memorija.ttl k JUndefined s1).1 = JNull
  ∧ (∀ h t, Memorija.pending s1 !! h = Some t -> Memorija.cb_key t ≠ k)
  ∧ Memorija.has k (Memorija.run tr s1) = true
  ∧ Memorija.get k (Memorija.run tr s1) = Memorija.slot1 r
  ∧ (Memorija.ttl k JUndefined (Memorija.run tr s1)).1 = JNull.
Proof.
  intros Hreach Hr Htr s1.
  pose proof (reachable_timer_inv s Hreach) as Hinv.
  assert (Hs1 : s1 = Memorija.set k (Memorija.slot1 r) JUndefined s).
  { unfold s1, Memorija.expireAt. by rewrite Hr. }
  assert (Hinv1 : timer_inv s1).
  { rewrite Hs1. by apply timer_inv_set. }
  assert (Hr1 : Memorija.getRawEntry k s1
                = Some (Memorija.mkRawEntry (Memorija.next_ref s) JUndefined
                          (Memorija.slot1 r))).
  { rewrite Hs1. apply getRawEntry_set_eq. }
  assert (Hlive : Memorija.getRawEntry k (Memorija.run tr s1)
                  = Some (Memorija.mkRawEntry (Memorija.next_ref s) JUndefined
                            (Memorija.slot1 r))).
  { by apply record_survives_scheduler. }
  split; [unfold Memorija.expireAt; by rewrite Hr|].
  split; [unfold Memorija.ttl, Memorija.getEntry; by rewrite Hr1|].
  split.
  { intros h t Hp Hk.
    destruct (inv_pending s1 Hinv1 _ _ Hp) as (r' & Hr' & _ & _ & Hs0).
    rewrite Hk, Hr1 in Hr'. injection Hr' as <-. done. }
  split; [apply has_getRawEntry; by rewrite Hlive|].
  split; [unfold Memorija.get; by rewrite Hlive|].
  unfold Memorija.ttl, Memorija.getEntry. by rewrite Hlive.
Qed.

Lemma expireAt_null_makes_key_permanent_witness :
  let s := Memorija.set (VStr "x") (VStr "v1") (JNum 100)
             (Memorija.constructor 0) in
  let s1 := (Memorija.expireAt (VStr "x") JNull s).2 in
  let tr := [Memorija.ETick 150; Memorija.EFire 0; Memorija.EFire 1] in
  (Memorija.expireAt (VStr "x") JNull s).1 = JNull
  ∧ (Memorija.ttl (VStr "x") JUndefined s1).1 = JNull
  ∧ (∀ h t, Memorija.pending s1 !! h = Some t ->
            Memorija.cb_key t ≠ VStr "x")
  ∧ Memorija.has (VStr "x") (Memorija.run tr s1) = true
  ∧ Memorija.get (VStr "x") (Memorija.run tr s1) = VStr "v1"
  ∧ (Memorija.ttl (VStr "x") JUndefined (Memorija.run tr s1)).1 = JNull.
Proof.
  refine (expireAt_null_makes_key_permanent _ (VStr "x")
            (Memorija.mkRawEntry 0 (JNum 100) (VStr "v1"))
            [Memorija.ETick 150; Memorija.EFire 0; Memorija.EFire 1]
            reachable_after_set _ _).
  - reflexivity.
  - repeat constructor; simpl; lia.
Defined.

(** ** Ownership of timers *)

(** X9.  In a reachable state no key has two pending timers, and every
    pending timer is for a key that is present: a handle never outlives
    its key. *)
Theorem one_pending_timer_per_key
    (s : Memorija.state) (h1 h2 : nat) (t1 t2 : Memorija.Timer) :
  Memorija.reachable s ->
  Memorija.pending s !! h1 = Some t1 ->
  Memorija.pending s !! h2 = Some t2 ->
  Memorija.cb_key t1 = Memorija.cb_key t2 ->
  h1 = h2 ∧ t1 = t2 ∧ Memorija.has (Memorija.cb_key t1) s = true.
Proof.
  intros Hreach Hp1 Hp2 Hkey.
  pose proof (reachable_timer_inv s Hreach) as Hinv.
  destruct (inv_pending s Hinv _ _ Hp1) as (r1 & Hr1 & _ & Hh1 & _).
  destruct (inv_pending s Hinv _ _ Hp2) as (r2 & Hr2 & _ & Hh2 & _).
  rewrite <- Hkey in Hr2.
  assert (r2 = r1) as -> by congruence.
  assert (h1 = h2) as -> by congruence.
  split; [done|]. split; [congruence|].
  apply has_getRawEntry. by rewrite Hr1.
Qed.

Lemma one_pending_timer_per_key_witness :
  let s := Memorija.set (VStr "x") (VStr "v1") (JNum 100)
             (Memorija.constructor 0) in
  let t := Memorija.mkTimer (VStr "x") 0 100 in
  0 = 0 ∧ t = t ∧ Memorija.has (VStr "x") s = true.
Proof.
  refine (one_pending_timer_per_key _ 0 0
            (Memorija.mkTimer (VStr "x") 0 100)
            (Memorija.mkTimer (VStr "x") 0 100)
            reachable_after_set _ _ _); reflexivity.
Defined.

(** X10.  In a reachable state, [set] and [delete] of a key [k] cancel
    only the timer of [k]: a pending timer of any other key stays
    pending under the same handle, and stays filed in the [WeakMap]
    under its record. *)
Theorem other_keys_timers_untouched
    (s : Memorija.state) (k v : jsval) (ttl : jsnum)
    (h : nat) (t : Memorija.Timer) :
  Memorija.reachable s ->
  Memorija.pending s !! h = Some t ->
  Memorija.cb_key t ≠ k ->
  Memorija.pending (Memorija.set k v ttl s) !! h = Some t
  ∧ Memorija.timers (Memorija.set k v ttl s) !! Memorija.cb_entry t = Some h
  ∧ Memorija.pending (Memorija.delete k s).2 !! h = Some t
  ∧ Memorija.timers (Memorija.delete k s).2 !! Memorija.cb_entry t = Some h.
Proof.
  intros Hreach Hp Hne.
  pose proof (reachable_timer_inv s Hreach) as Hinv.
  destruct (inv_pending s Hinv _ _ Hp) as (r & Hr & Href & Hh & _).
  pose proof (pending_after_cancel_other s k h t Hinv Hp Hne) as Hpc.
  pose proof (timers_after_cancel_other s k _ r Hinv Hne Hr) as Htc.
  rewrite Href, <- Href, Hh in Htc. rewrite Href in Htc.
  assert (Hlt : h < Memorija.next_handle s).
  { apply (inv_handle_fresh s Hinv). by rewrite Hp. }
  assert (Hrlt : Memorija.cb_entry t < Memorija.next_ref s).
  { rewrite <- Href. by apply (inv_ref_fresh s Hinv _ _ Hr). }
  destruct (delete_timers k s) as (Htd & Hpd & _).
  split; [|split; [|split]].
  - destruct (decide (ttl = JUndefined)) as [->|Httl].
    + destruct (set_timers_without_ttl k v s) as (_ & -> & _). done.
    + destruct (set_timers_with_ttl k v ttl s Httl) as (_ & -> & _).
      rewrite lookup_insert_ne; [done | lia].
  - destruct (decide (ttl = JUndefined)) as [->|Httl].
    + destruct (set_timers_without_ttl k v s) as (-> & _). done.
    + destruct (set_timers_with_ttl k v ttl s Httl) as (-> & _).
      rewrite lookup_insert_ne; [done | lia].
  - by rewrite Hpd.
  - by rewrite Htd.
Qed.

Lemma other_keys_timers_untouched_witness :
  let s := Memorija.set (VStr "x") (VStr "v1") (JNum 100)
             (Memorija.constructor 0) in
  let t := Memorija.mkTimer (VStr "x") 0 100 in
  Memorija.pending (Memorija.set (VStr "y") VNull (JNum 5) s) !! 0 = Some t
  ∧ Memorija.timers (Memorija.set (VStr "y") VNull (JNum 5) s) !! 0 = Some 0
  ∧ Memorija.pending (Memorija.delete (VStr "y") s).2 !! 0 = Some t
  ∧ Memorija.timers (Memorija.delete (VStr "y") s).2 !! 0 = Some 0.
Proof.
  refine (other_keys_timers_untouched _ (VStr "y") VNull (JNum 5) 0
            (Memorija.mkTimer (VStr "x") 0 100) reachable_after_set _ _).
  - reflexivity.
  - discriminate.
Defined.

(** ** Keys, size and the full views *)

(** X11.  In a reachable state [keys] has no duplicates, so [size] is
    the number of distinct keys; a key is in [keys] exactly when [has]
    says so; and deleting a present key makes the map one smaller. *)
Theorem keys_are_distinct (s : Memorija.state) :
  Memorija.reachable s ->
  NoDup (Memorija.keys s)
  ∧ Memorija.size s = length (Memorija.keys s)
  ∧ length (Memorija.values s) = Memorija.size s
  ∧ (∀ k, Memorija.has k s = true <-> k ∈ Memorija.keys s)
  ∧ (∀ k, Memorija.has k s = true ->
       S (Memorija.size (Memorija.delete k s).2) = Memorija.size s)
  ∧ (∀ k, Memorija.has k s = false ->
       Memorija.size (Memorija.delete k s).2 = Memorija.size s).
Proof.
  intros Hreach. pose proof (reachable_timer_inv s Hreach) as Hinv.
  split; [apply (inv_keys s Hinv)|].
  split; [apply size_keys|].
  split; [unfold Memorija.values, Memorija.size; by rewrite length_fmap|].
  split; [intros k; apply jsmap_has_keys|].
  split.
  - intros k Hk. unfold Memorija.size. rewrite delete_map.
    apply jsmap_length_delete_present; [apply (inv_keys s Hinv) | done].
  - intros k Hk. unfold Memorija.size. rewrite delete_map.
    by rewrite jsmap_delete_absent.
Qed.

Lemma keys_are_distinct_witness :
  let s := Memorija.set (VStr "x") (VStr "v1") (JNum 100)
             (Memorija.constructor 0) in
  NoDup (Memorija.keys s) ∧ Memorija.size s = length (Memorija.keys s).
Proof.
  pose proof (keys_are_distinct _ reachable_after_set) as H.
  destruct H as (H1 & H2 & _).
  split; [exact H1 | exact H2].
Defined.

(** X12.  In a reachable state the full views agree with the
    single-key accessor: [fullEntries] lists exactly the pairs [(k, e)]
    with [getEntry(k) = e], [fullValues] is its second components, the
    values of those entries are [values], and no entry handed out has an
    [undefined] deadline. *)
Theorem fullEntries_match_getEntry (s : Memorija.state) :
  Memorija.reachable s ->
  (∀ k e, (k, e) ∈ Memorija.fullEntries s <-> Memorija.getEntry k s = Some e)
  ∧ Memorija.fullValues s = (Memorija.fullEntries s).*2
  ∧ MemorijaEntry.value <$> Memorija.fullValues s = Memorija.values s
  ∧ (∀ e, e ∈ Memorija.fullValues s -> MemorijaEntry.expireAt e ≠ JUndefined).
Proof.
  intros Hreach. pose proof (reachable_timer_inv s Hreach) as Hinv.
  pose proof (inv_keys s Hinv) as Hnd.
  unfold Memorija.fullEntries, Memorija.fullValues, Memorija.values,
    Memorija.getEntry, Memorija.getRawEntry, Memorija.keys in *.
  split; [|split; [|split]].
  - intros k e. split.
    + intros ([k' r] & [= -> ->] & Hin)%list_elem_of_fmap.
      simpl. by rewrite (jsmap_elem_get k' r _ Hnd Hin).
    + destruct (jsmap_get k (Memorija.map s)) as [r|] eqn:Hr; [|done].
      intros [= <-]. apply jsmap_get_Some_elem in Hr.
      apply (list_elem_of_fmap_2
               (fun kv => (kv.1, MemorijaEntry.constructor
                                   (Memorija.slot1 kv.2) (Memorija.slot0 kv.2)))
               _ _ Hr).
  - rewrite <- list_fmap_compose. done.
  - rewrite <- list_fmap_compose. done.
  - intros e ([k' r] & -> & Hin)%list_elem_of_fmap. simpl.
    by destruct (Memorija.slot0 r).
Qed.

Lemma fullEntries_match_getEntry_witness :
  let s := Memorija.set (VStr "x") (VStr "v1") (JNum 100)
             (Memorija.constructor 0) in
  Memorija.fullValues s = (Memorija.fullEntries s).*2.
Proof.
  exact (proj1 (proj2 (fullEntries_match_getEntry _ reachable_after_set))).
Defined.

(** ** Entries with a deadline *)

(** X13.  For an entry with deadline [d], [ttl] is [d - now] and
    [isExpired] holds exactly when [d < now], that is when the [ttl] is
    negative: at the very instant of the deadline the entry reports a
    [ttl] of [0] and is not yet expired. *)
Theorem entry_expired_iff_past_deadline (v : jsval) (d now : Z) :
  let e := MemorijaEntry.constructor v (JNum d) in
  MemorijaEntry.value e = v
  ∧ MemorijaEntry.expireAt e = JNum d
  ∧ MemorijaEntry.ttl now e = JNum (d - now)
  ∧ (MemorijaEntry.isExpired now e = true <-> (d < now)%Z)
  ∧ (MemorijaEntry.isExpired now e = true
     <-> ∃ z, MemorijaEntry.ttl now e = JNum z ∧ (z < 0)%Z)
  ∧ MemorijaEntry.ttl d e = JNum 0
  ∧ MemorijaEntry.isExpired d e = false.
Proof.
  intros e.
  assert (Hexp : ∀ n, MemorijaEntry.isExpired n e = bool_decide (d < n)%Z)
    by done.
  assert (Httl : ∀ n, MemorijaEntry.ttl n e = JNum (d - n)) by done.
  split; [done|]. split; [done|]. split; [done|]. split; [|split; [|split]].
  - rewrite Hexp. apply bool_decide_eq_true.
  - rewrite Hexp, Httl, bool_decide_eq_true. split.
    + intros Hlt. exists (d - now)%Z. split; [done | lia].
    + intros (z & [= <-] & Hz). lia.
  - rewrite Httl. f_equal. lia.
  - rewrite Hexp. apply bool_decide_eq_false. lia.
Qed.

(** ** Setting a key twice *)

(** X14.  The last [set] wins: setting [k] twice in a row shows the
    same keys, values and deadlines, in the same order, as the second
    [set] alone. *)
Theorem last_set_wins
    (s : Memorija.state) (k v1 v2 : jsval) (t1 t2 : jsnum) :
  let s12 := Memorija.set k v2 t2 (Memorija.set k v1 t1 s) in
  let s2 := Memorija.set k v2 t2 s in
  Memorija.fullEntries s12 = Memorija.fullEntries s2
  ∧ Memorija.entries s12 = Memorija.entries s2
  ∧ Memorija.keys s12 = Memorija.keys s2
  ∧ Memorija.size s12 = Memorija.size s2.
Proof.
  intros s12 s2.
  assert (Hmap : Memorija.map s12
                 = jsmap_set k
                     (Memorija.mkRawEntry
                        (Memorija.next_ref (Memorija.set k v1 t1 s))
                        (new_deadline (Memorija.clock s) t2) v2)
                     (Memorija.map s)).
  { unfold s12. rewrite set_map, set_clock, set_map. apply jsmap_set_set. }
  assert (Hmap2 : Memorija.map s2
                  = jsmap_set k
                      (Memorija.mkRawEntry (Memorija.next_ref s)
                         (new_deadline (Memorija.clock s) t2) v2)
                      (Memorija.map s)).
  { unfold s2. apply set_map. }
  assert (Hview : ∀ {B : Type} (g : jsval -> jsnum -> jsval -> B),
             (fun kv => g kv.1 (Memorija.slot0 kv.2) (Memorija.slot1 kv.2))
               <$> Memorija.map s12
             = (fun kv => g kv.1 (Memorija.slot0 kv.2) (Memorija.slot1 kv.2))
                 <$> Memorija.map s2).
  { intros B g. rewrite Hmap, Hmap2. by apply jsmap_fmap_set. }
  split; [|split; [|split]].
  - apply (Hview _ (fun k0 d v => (k0, MemorijaEntry.constructor v d))).
  - apply (Hview _ (fun k0 d v => (k0, v))).
  - apply (Hview _ (fun k0 d v => k0)).
  - unfold Memorija.size.
    rewrite <- (length_fmap fst (Memorija.map s12)),
            <- (length_fmap fst (Memorija.map s2)).
    f_equal. apply (Hview _ (fun k0 d v => k0)).
Qed.

(** ** Collection of keys past their deadline *)

(** X15.  In a reachable state, a key whose deadline has been reached
    can always be collected: the handle filed for its record is pending
    and due, and its firing removes that key, makes the map one smaller
    and leaves every other key's record alone. *)
Theorem past_deadline_key_can_be_collected
    (s : Memorija.state) (k : jsval) (r : Memorija.RawEntry) (d : Z) :
  Memorija.reachable s ->
  Memorija.getRawEntry k s = Some r ->
  Memorija.slot0 r = JNum d ->
  (d ≤ Memorija.clock s)%Z ->
  ∃ h, Memorija.timers s !! Memorija.ref r = Some h
       ∧ Memorija.has k (Memorija.fire h s) = false
       ∧ S (Memorija.size (Memorija.fire h s)) = Memorija.size s
       ∧ ∀ k', k' ≠ k ->
           Memorija.getRawEntry k' (Memorija.fire h s)
           = Memorija.getRawEntry k' s.
Proof.
  intros Hreach Hr Hd Hdue.
  pose proof (reachable_timer_inv s Hreach) as Hinv.
  destruct (timer_inv_deadline_iff s Hinv k r Hr) as [Hiff Hfire].
  destruct (proj1 Hiff) as (h & t & Hlive); [by rewrite Hd|].
  pose proof (Hfire h t Hlive) as Hat.
  destruct Hlive as (Hh & Hp & Hkey & Hcb).
  assert (Hdue' : (Memorija.fire_at t ≤ Memorija.clock s)%Z).
  { rewrite Hd in Hat. injection Hat as <-. done. }
  exists h. split; [done|].
  rewrite (fire_as_delete s h t Hinv Hp Hdue'), Hkey.
  split; [|split].
  - unfold Memorija.has, jsmap_has. rewrite delete_map.
    by rewrite jsmap_get_delete_eq.
  - unfold Memorija.size. rewrite delete_map.
    apply jsmap_length_delete_present; [apply (inv_keys s Hinv)|].
    apply has_getRawEntry. by rewrite Hr.
  - intros k' Hne. by apply getRawEntry_delete_ne.
Qed.

Lemma past_deadline_key_can_be_collected_witness :
  let s := Memorija.tick 150
             (Memorija.set (VStr "x") (VStr "v1") (JNum 100)
                (Memorija.constructor 0)) in
  ∃ h, Memorija.timers s !! 0 = Some h
       ∧ Memorija.has (VStr "x") (Memorija.fire h s) = false
       ∧ S (Memorija.size (Memorija.fire h s)) = Memorija.size s
       ∧ ∀ k', k' ≠ VStr "x" ->
           Memorija.getRawEntry k' (Memorija.fire h s)
           = Memorija.getRawEntry k' s.
Proof.
  refine (past_deadline_key_can_be_collected _ (VStr "x")
            (Memorija.mkRawEntry 0 (JNum 100) (VStr "v1")) 100
            reachable_after_set_and_wait _ _ _).
  - reflexivity.
  - reflexivity.
  - simpl. lia.
Defined.

(** X16.  No key is collected early: in a state reached by calls
    whose TTLs are all [undefined], [null] or finite numbers within the
    host's range (a delay of at most 2147483647 ms, and a deadline
    computed on safe integers), if the firing of a handle removes [k],
    then the record of [k] had a deadline and the clock had reached it.
    In particular a key without deadline is never removed by a
    firing. *)
Theorem no_eviction_before_deadline
    (s : Memorija.state) (h : nat) (k : jsval) :
  reachable_in_range s ->
  Memorija.has k s = true ->
  Memorija.has k (Memorija.fire h s) = false ->
  ∃ r d, Memorija.getRawEntry k s = Some r
         ∧ Memorija.slot0 r = JNum d
         ∧ (d ≤ Memorija.clock s)%Z.
Proof.
  intros Hreach Hin Hout.
  pose proof (reachable_timer_inv s (reachable_in_range_reachable s Hreach))
    as Hinv.
  destruct (fire_cases h s Hinv)
    as [Hid|(t & r & Hp & Hdue & Hr & Href & Hs0 & Hf)].
  { rewrite Hid in Hout. congruence. }
  destruct (decide (Memorija.cb_key t = k)) as [<-|Hne].
  - by exists r, (Memorija.fire_at t).
  - apply has_getRawEntry in Hin.
    rewrite Hf in Hout.
    rewrite <- (getRawEntry_delete_ne _ _ s Hne) in Hin.
    apply has_getRawEntry in Hin. congruence.
Qed.

Lemma no_eviction_before_deadline_witness :
  let s := Memorija.tick 150
             (Memorija.set (VStr "x") (VStr "v1") (JNum 100)
                (Memorija.constructor 0)) in
  ∃ r d, Memorija.getRawEntry (VStr "x") s = Some r
         ∧ Memorija.slot0 r = JNum d
         ∧ (d ≤ Memorija.clock s)%Z.
Proof.
  refine (no_eviction_before_deadline _ 0 (VStr "x") _ _ _).
  - apply (in_range_step (Memorija.ETick 150)).
    + apply (in_range_step
               (Memorija.ESet (VStr "x") (VStr "v1") (JNum 100))
               (Memorija.constructor 0) (in_range_new 0)).
      * discriminate.
      * vm_compute. repeat split; discriminate.
    + simpl. lia.
    + exact I.
  - reflexivity.
  - vm_compute. reflexivity.
Defined.

(** ** Rescheduling through the setters *)

(** X17.  The setters reschedule: in a reachable state, after
    [ttl(k, t)] on a present key with [t] within the host's timer range
    (at most 2147483647 ms), whatever timer the key had before, the key
    stays with its value through every run of the scheduler in which
    less than [t] elapses; after [expireAt(k, i)] with [i - now] within
    that range, and [now], [i] and [i - now] safe integers, it stays
    through every run that ends before [i].  The getter of [expireAt]
    then returns the new deadline (for [ttl(k, t)]: when [now], [t] and
    [now + t] are safe integers). *)
Theorem setters_reschedule_expiration
    (s : Memorija.state) (k : jsval) (r : Memorija.RawEntry) (t i : Z)
    (tr : list Memorija.event) :
  Memorija.reachable s ->
  Memorija.getRawEntry k s = Some r ->
  Forall Memorija.scheduler_event tr ->
  (let s2 := Memorija.run tr (Memorija.ttl k (JNum t) s).2 in
   (t ≤ TIMEOUT_MAX)%Z ->
   (Memorija.clock s2 < Memorija.clock s + t)%Z ->
   Memorija.has k s2 = true ∧ Memorija.get k s2 = Memorija.slot1 r
   ∧ (safe_integer (Memorija.clock s) -> safe_integer t ->
      safe_integer (Memorija.clock s + t) ->
      (Memorija.expireAt k JUndefined s2).1 = JNum (Memorija.clock s + t)))
  ∧ (let s2 := Memorija.run tr (Memorija.expireAt k (JNum i) s).2 in
     (i - Memorija.clock s ≤ TIMEOUT_MAX)%Z ->
     safe_integer (Memorija.clock s) -> safe_integer i ->
     safe_integer (i - Memorija.clock s) ->
     (Memorija.clock s2 < i)%Z ->
     Memorija.has k s2 = true ∧ Memorija.get k s2 = Memorija.slot1 r
     ∧ (Memorija.expireAt k JUndefined s2).1 = JNum i).
Proof.
  intros Hreach Hr Htr.
  pose proof (reachable_timer_inv s Hreach) as Hinv.
  assert (Hgen : ∀ t0,
            let s2 := Memorija.run tr
                        (Memorija.set k (Memorija.slot1 r) (JNum t0) s) in
            (Memorija.clock s2 < Memorija.clock s + t0)%Z ->
            Memorija.has k s2 = true ∧ Memorija.get k s2 = Memorija.slot1 r
            ∧ (Memorija.expireAt k JUndefined s2).1
              = JNum (Memorija.clock s + t0)).
  { intros t0 s2 Hclock.
    assert (Hlive : Memorija.getRawEntry k s2
                    = Some (Memorija.mkRawEntry (Memorija.next_ref s)
                              (JNum (Memorija.clock s + t0))
                              (Memorija.slot1 r))).
    { apply record_survives_scheduler; try done.
      - by apply timer_inv_set.
      - apply getRawEntry_set_eq.
      - simpl. intros d [= <-]. done. }
    split; [apply has_getRawEntry; by rewrite Hlive|].
    split; [unfold Memorija.get; by rewrite Hlive|].
    unfold Memorija.expireAt. by rewrite Hlive. }
  split.
  - assert (Hs : (Memorija.ttl k (JNum t) s).2
                 = Memorija.set k (Memorija.slot1 r) (JNum t) s).
    { unfold Memorija.ttl, Memorija.getEntry. by rewrite Hr. }
    rewrite Hs. intros s2 _ Hclock.
    destruct (Hgen t Hclock) as (H1 & H2 & H3).
    by repeat split.
  - assert (Hs : (Memorija.expireAt k (JNum i) s).2
                 = Memorija.set k (Memorija.slot1 r)
                     (JNum (i - Memorija.clock s)) s).
    { unfold Memorija.expireAt. by rewrite Hr. }
    rewrite Hs. intros s2 _ _ _ _ Hclock.
    destruct (Hgen (i - Memorija.clock s)%Z) as (H1 & H2 & H3).
    { fold s2. lia. }
    fold s2 in H1, H2, H3. split; [done|]. split; [done|].
    rewrite H3. f_equal. lia.
Qed.

Lemma setters_reschedule_expiration_witness :
  let s := Memorija.set (VStr "x") (VStr "v1") (JNum 100)
             (Memorija.constructor 0) in
  let tr := [Memorija.ETick 150; Memorija.EFire 0; Memorija.EFire 1] in
  let s2 := Memorija.run tr (Memorija.ttl (VStr "x") (JNum 5000) s).2 in
  Memorija.has (VStr "x") s2 = true ∧ Memorija.get (VStr "x") s2 = VStr "v1"
  ∧ (Memorija.expireAt (VStr "x") JUndefined s2).1
    = JNum (Memorija.clock s + 5000).
Proof.
  pose proof (setters_reschedule_expiration _ (VStr "x")
                (Memorija.mkRawEntry 0 (JNum 100) (VStr "v1")) 5000 9000
                [Memorija.ETick 150; Memorija.EFire 0; Memorija.EFire 1]
                reachable_after_set) as H.
  destruct H as [H _].
  - reflexivity.
  - repeat constructor; simpl; lia.
  - destruct H as (H1 & H2 & H3).
    + unfold TIMEOUT_MAX. lia.
    + vm_compute. reflexivity.
    + split; [exact H1|]. split; [exact H2|].
      apply H3; unfold safe_integer; simpl; lia.
Defined.
